(** * cosmo: a reflection-based dependency-injection container

    A shallow embedding of the container of package [cosmo] (the variant
    with scopes and named configurations) and the properties of its
    resolution engine.

    Conventions of the embedding:
    - [reflect.Type] is the inductive [GoType]; the two Go maps keyed by
      [reflect.Type] and the one keyed by [string] are [gmap]s;
    - registered constructors and invoked functions are [Func] records: a
      signature and a body which reads and writes an ambient [World] (the
      variables a Go closure captures).  A body neither re-enters the
      container nor panics; a nil function value has no body;
    - a Go [panic] is the outcome [Panic]; [resolve] recurses without a
      bound in Go, so the embedding takes a recursion budget and answers
      [None] when the budget is exhausted;
    - the machine state carries, next to the container, a log of every
      [reflect.Value.Call] the container performs.  The log is
      instrumentation: no Go field corresponds to it. *)

From stdpp Require Import base option list strings countable gmap fin_maps.

Set Default Proof Using "Type".
Set Warnings "-register-all".

(** ** Types ([reflect.Type]) *)

Inductive GoType : Type :=
  | TBasic (name : string)        (* bool, int, string, ...: not nilable *)
  | TStruct (name : string)       (* a named struct type *)
  | TInterface (name : string)    (* a named interface type, e.g. error *)
  | TPtr (elem : GoType)
  | TFunc (ins outs : list GoType).

Section GoType_induction.
Variable P : GoType → Prop.
Hypothesis Hbasic : ∀ n, P (TBasic n).
Hypothesis Hstruct : ∀ n, P (TStruct n).
Hypothesis Hiface : ∀ n, P (TInterface n).
Hypothesis Hptr : ∀ e, P e → P (TPtr e).
Hypothesis Hfunc : ∀ ins outs, Forall P ins → Forall P outs → P (TFunc ins outs).

Fixpoint GoType_nested_ind (t : GoType) : P t :=
  match t with
  | TBasic n => Hbasic n
  | TStruct n => Hstruct n
  | TInterface n => Hiface n
  | TPtr e => Hptr e (GoType_nested_ind e)
  | TFunc ins outs =>
      Hfunc ins outs
        ((fix go l : Forall P l :=
            match l with
            | [] => Forall_nil_2 P
            | x :: l' => Forall_cons_2 P x l' (GoType_nested_ind x) (go l')
            end) ins)
        ((fix go l : Forall P l :=
            match l with
            | [] => Forall_nil_2 P
            | x :: l' => Forall_cons_2 P x l' (GoType_nested_ind x) (go l')
            end) outs)
  end.
End GoType_induction.

(** Types are keys of Go maps: they are comparable and, here, countable
    through a tree encoding. *)
Fixpoint GoType_encode (t : GoType) : gen_tree (nat * string) :=
  match t with
  | TBasic n => GenLeaf (0, n)
  | TStruct n => GenLeaf (1, n)
  | TInterface n => GenLeaf (2, n)
  | TPtr e => GenNode 0 [GoType_encode e]
  | TFunc ins outs =>
      GenNode 1 [GenNode 0 (map GoType_encode ins); GenNode 0 (map GoType_encode outs)]
  end.

Fixpoint GoType_decode (g : gen_tree (nat * string)) : option GoType :=
  match g with
  | GenLeaf (0, n) => Some (TBasic n)
  | GenLeaf (1, n) => Some (TStruct n)
  | GenLeaf (2, n) => Some (TInterface n)
  | GenLeaf _ => None
  | GenNode 0 [e] => TPtr <$> GoType_decode e
  | GenNode 1 [GenNode 0 gins; GenNode 0 gouts] =>
      let all := fix all (l : list (gen_tree (nat * string))) : option (list GoType) :=
        match l with
        | [] => Some []
        | x :: l' =>
            match GoType_decode x, all l' with
            | Some y, Some ys => Some (y :: ys)
            | _, _ => None
            end
        end in
      match all gins, all gouts with
      | Some i, Some o => Some (TFunc i o)
      | _, _ => None
      end
  | GenNode _ _ => None
  end.

Lemma GoType_decode_encode t : GoType_decode (GoType_encode t) = Some t.
Proof.
  induction t as [n|n|n|e IH|ins outs Hi Ho] using GoType_nested_ind; simpl; try done.
  - by rewrite IH.
  - assert (Hall : ∀ l, Forall (λ t, GoType_decode (GoType_encode t) = Some t) l →
      (fix all (l : list (gen_tree (nat * string))) : option (list GoType) :=
        match l with
        | [] => Some []
        | x :: l' =>
            match GoType_decode x, all l' with
            | Some y, Some ys => Some (y :: ys)
            | _, _ => None
            end
        end) (map GoType_encode l) = Some l).
    { induction 1 as [|x l Hx _ IHl]; simpl; [done|]. by rewrite Hx, IHl. }
    by rewrite (Hall _ Hi), (Hall _ Ho).
Qed.

Lemma GoType_encode_inj t1 t2 : GoType_encode t1 = GoType_encode t2 → t1 = t2.
Proof.
  intros H. apply (inj Some).
  by rewrite <-(GoType_decode_encode t1), <-(GoType_decode_encode t2), H.
Qed.

#[global] Instance GoType_eq_dec : EqDecision GoType.
Proof.
  intros t1 t2. destruct (decide (GoType_encode t1 = GoType_encode t2)) as [H|H].
  - left. by apply GoType_encode_inj.
  - right. by intros ->.
Defined.

#[global] Instance GoType_countable : Countable GoType :=
  inj_countable GoType_encode GoType_decode GoType_decode_encode.

(** [t.Kind()] as far as the code looks at it. *)
Inductive Kind : Type := KOther | KStruct | KInterface | KPointer | KFunc.

Definition kind (t : GoType) : Kind :=
  match t with
  | TBasic _ => KOther
  | TStruct _ => KStruct
  | TInterface _ => KInterface
  | TPtr _ => KPointer
  | TFunc _ _ => KFunc
  end.

(** The kinds on which [reflect.Value.IsNil] does not panic. *)
Definition nilable (t : GoType) : bool :=
  match kind t with
  | KInterface | KPointer | KFunc => true
  | KOther | KStruct => false
  end.

(** [t.String()], what the verb [%v] prints for a [reflect.Type]. *)
Fixpoint type_string (t : GoType) : string :=
  match t with
  | TBasic n | TStruct n | TInterface n => n
  | TPtr e => "*" +:+ type_string e
  | TFunc ins outs =>
      let commas := fix commas (l : list GoType) : string :=
        match l with
        | [] => EmptyString
        | [x] => type_string x
        | x :: l' => type_string x +:+ ", " +:+ commas l'
        end in
      "func(" +:+ commas ins +:+ ")" +:+
      match outs with
      | [] => EmptyString
      | [o] => " " +:+ type_string o
      | _ => " (" +:+ commas outs +:+ ")"
      end
  end.

Example type_string_func :
  type_string (TFunc [TStruct "cosmo.Config"] [TInterface "cosmo.DBService"; TInterface "error"])
  = "func(cosmo.Config) (cosmo.DBService, error)".
Proof. reflexivity. Qed.

Example gmap_GoType_computes :
  (<[TStruct "A" := 1]> (<[TPtr (TStruct "A") := 2]> (∅ : gmap GoType nat))) !! TPtr (TStruct "A") = Some 2.
Proof. vm_compute. reflexivity. Qed.

(** ** Values ([reflect.Value]) and errors

    A value is known to the container only through [IsNil] and the type
    assertion to [error]; [d] stands for the identity and contents of any
    other value. *)
Inductive Value : Type :=
  | VZero                   (* reflect.Value{}, the zero Value *)
  | VNil                    (* a nil interface, pointer or function *)
  | VData (d : nat)         (* non-nil, its dynamic type does not implement error *)
  | VError (msg : string).  (* non-nil, implements error; msg is its Error() *)

#[global] Instance Value_eq_dec : EqDecision Value.
Proof. solve_decision. Defined.

(** [errors.New] and [fmt.Errorf] both build an error from its text. *)
Definition errors_New (msg : string) : Value := VError msg.

Definition Errorf_no_provider (t : GoType) : Value :=
  VError ("no provider for type " +:+ type_string t).

Inductive Scope : Type := ScopeTransient | ScopeSingleton.

#[global] Instance Scope_eq_dec : EqDecision Scope.
Proof. solve_decision. Defined.

(** What a Go call hands back: [Ok a] for [(a, nil)], [Err e] for
    [(zero, e)], [Panic] for a run-time panic. *)
Inductive result (A : Type) : Type :=
  | Ok (a : A)
  | Err (e : Value)
  | Panic (msg : string).
Arguments Ok {A} a.
Arguments Err {A} e.
Arguments Panic {A} msg.

Definition panic_zero_Value : string := "reflect: call of method on zero Value".
Definition panic_Elem : string := "reflect: call of reflect.Value.Elem on a Value that is not a pointer".
Definition panic_NumField : string := "reflect: call of reflect.Value.NumField on a Value that is not a struct".
Definition panic_IsNil : string := "reflect: call of reflect.Value.IsNil on a Value that is not nilable".
Definition panic_not_error : string := "interface conversion: value is not error".
Definition panic_nil_func : string := "reflect: call of nil function".
Definition panic_index : string := "index out of range".
Definition panic_unexported : string := "reflect: reflect.Value.Set using value obtained using unexported field".
Definition panic_dangling : string := "invalid memory address".

(** A field can be [Set] through reflection only when it is exported: its
    name starts with an upper-case letter.  The embedding decides this on
    the first byte of the name: a name that starts with one of A..Z is
    exported, a name that starts with another ASCII character is not.  Go
    also exports the names that start with an upper-case letter outside
    ASCII; what is proved of unexported fields is stated for names with an
    ASCII first character. *)
Definition is_exported (name : string) : bool :=
  match name with
  | String c _ => (65 <=? Ascii.nat_of_ascii c) && (Ascii.nat_of_ascii c <=? 90)
  | EmptyString => false
  end.

Record StructField : Type := {
  f_name : string;
  f_type : GoType;
  f_val : Value
}.

Record StructVar : Type := {
  s_type : string;
  s_fields : list StructField
}.

(** The field [fld] once [val] has been assigned to it. *)
Definition bound (fld : StructField) (val : Value) : StructField :=
  {| f_name := f_name fld; f_type := f_type fld; f_val := val |}.

Definition set_field (i : nat) (val : Value) (s : StructVar) : StructVar :=
  {| s_type := s_type s;
     s_fields := alter (λ fld, bound fld val) i (s_fields s) |}.

Section Cosmo.
(** The variables captured by the closures handed to the container. *)
Context {World : Type}.

(** A function value: its identity, its signature ([NumIn], [In(i)],
    [NumOut], [Out(i)]) and its body; a nil function has no body. *)
Record Func : Type := {
  fn_id : nat;
  fn_in : list GoType;
  fn_out : list GoType;
  fn_body : option (list Value → World → list Value * World)
}.

(** The argument of a parameter declared [any], as [reflect.ValueOf]
    classifies it. *)
Inductive Any : Type :=
  | ANil                                (* the nil interface *)
  | AFunc (f : Func)                    (* a function value *)
  | AStructPtr (addr : nat)             (* a non-nil pointer to a struct variable *)
  | ANilPtr (elem : GoType)             (* a nil pointer of type *elem *)
  | AOtherPtr (elem : GoType)           (* a non-nil pointer to a variable that is no struct *)
  | AValue (t : GoType) (v : Value).    (* a value that is neither function nor pointer *)

(** type Spec struct *)
Record Spec : Type := {
  Type_ : GoType;
  Value_ : Func;
  Scope_ : Scope
}.

(** type Container struct *)
Record Container : Type := {
  configurations : gmap string GoType;
  providers : gmap GoType Spec;
  instances : gmap GoType Value
}.

(** One entry of the call log per [reflect.Value.Call]. *)
Inductive Event : Type :=
  | Constructed (t : GoType) (f : Func) (args : list Value)  (* in resolve, provider of t *)
  | Invoked (f : Func) (args : list Value).                  (* in Invoke *)

Definition constructed_for (t : GoType) (ev : Event) : Prop :=
  match ev with
  | Constructed t' _ _ => t' = t
  | Invoked _ _ => False
  end.

Definition calls_func (f : Func) (ev : Event) : Prop :=
  match ev with
  | Constructed _ f' _ | Invoked f' _ => f' = f
  end.

#[global] Instance constructed_for_dec t ev : Decision (constructed_for t ev).
Proof. destruct ev; simpl; apply _. Defined.

(** How many times a constructor was called for [t] in a piece of the log. *)
Definition constructions (t : GoType) (evs : list Event) : nat :=
  length (filter (constructed_for t) evs).

Record State : Type := {
  ctr : Container;
  world : World;
  heap : gmap nat StructVar;   (* the struct variables Bind is pointed at *)
  calls : list Event
}.

(** func New() *Container *)
Definition New : Container :=
  {| configurations := ∅; providers := ∅; instances := ∅ |}.

(** *** The monad of container operations *)
Definition M (A : Type) : Type := State → option (result A * State).

Definition mret {A} (a : A) : M A := λ st, Some (Ok a, st).
Definition mfail {A} (e : Value) : M A := λ st, Some (Err e, st).
Definition mpanic {A} (msg : string) : M A := λ st, Some (Panic msg, st).
Definition mlift {A} (r : result A) : M A := λ st, Some (r, st).

Definition mbind {A B} (m : M A) (k : A → M B) : M B := λ st,
  match m st with
  | None => None
  | Some (Ok a, st1) => k a st1
  | Some (Err e, st1) => Some (Err e, st1)
  | Some (Panic msg, st1) => Some (Panic msg, st1)
  end.
End Cosmo.

Arguments Func : clear implicits.
Arguments Any : clear implicits.
Arguments Spec : clear implicits.
Arguments Container : clear implicits.
Arguments Event : clear implicits.
Arguments State : clear implicits.
Arguments M : clear implicits.

Notation "'let*' x ':=' m 'in' k" := (mbind m (λ x, k))
  (at level 10, x pattern, m at level 100, k at level 200).

(** ** The container's operations *)
Section Operations.
Context {World : Type}.
#[local] Abbreviation Func := (Func World).
#[local] Abbreviation Any := (Any World).
#[local] Abbreviation Spec := (Spec World).
#[local] Abbreviation Container := (Container World).
#[local] Abbreviation Event := (Event World).
#[local] Abbreviation State := (State World).
#[local] Abbreviation M := (M World).

Definition with_ctr (c : Container) (st : State) : State :=
  {| ctr := c; world := world st; heap := heap st; calls := calls st |}.

(** func spec(constructor any) (reflect.Type, reflect.Value, error) *)
Definition spec (constructor : Any) : result (GoType * Func) :=
  match constructor with
  | ANil => Panic panic_zero_Value                 (* v.Type() of the zero Value *)
  | AFunc v =>
      if (length (fn_out v) =? 0) || (2 <? length (fn_out v))
      then Err (errors_New "constructor must return T or (T, error)")
      else match fn_out v with
           | t :: _ => Ok (t, v)
           | [] => Panic panic_index
           end
  | _ => Err (errors_New "constructor must be a function")
  end.

(** func (c *Container) AddWithScope(scope Scope, constructor any) error *)
Definition AddWithScope (scope : Scope) (constructor : Any) : M unit :=
  let* (t, v) := mlift (spec constructor) in
  λ st,
    let c := ctr st in
    mret ()
      (with_ctr {| configurations := configurations c;
                   providers := <[t := {| Type_ := t; Value_ := v; Scope_ := scope |}]> (providers c);
                   instances := instances c |} st).

(** func (c *Container) Add(constructor any) error *)
Definition Add (constructor : Any) : M unit :=
  AddWithScope ScopeTransient constructor.

(** func (c *Container) AddSingleton(constructor any) error *)
Definition AddSingleton (constructor : Any) : M unit :=
  AddWithScope ScopeSingleton constructor.

(** [v.Call(args)]: runs the body on the current world and logs the call. *)
Definition Call (ev : Func → list Value → Event) (v : Func) (args : list Value)
    : M (list Value) := λ st,
  match fn_body v with
  | None => mpanic panic_nil_func st
  | Some body =>
      let '(out, w) := body args (world st) in
      mret out {| ctr := ctr st; world := w; heap := heap st;
                  calls := calls st ++ [ev v args] |}
  end.

(** The loop that fills [args]: the types are resolved from left to
    right and the first failure ends the loop. *)
Fixpoint resolve_args (rec : GoType → M Value) (ins : list GoType) : M (list Value) :=
  match ins with
  | [] => mret []
  | argType :: rest =>
      let* val := rec argType in
      let* vals := resolve_args rec rest in
      mret (val :: vals)
  end.

(** if len(out) == 2 && !out[1].IsNil() { return ..., out[1].Interface().(error) } *)
Definition check_error (v : Func) (out : list Value) : M unit :=
  match out with
  | [_; out1] =>
      match nilable <$> fn_out v !! 1 with
      | Some true =>
          match out1 with
          | VNil => mret ()
          | VError _ => mfail out1
          | VData _ | VZero => mpanic panic_not_error
          end
      | _ => mpanic panic_IsNil
      end
  | _ => mret ()
  end.

(** c.instances[t] = result *)
Definition store_instance (t : GoType) (result : Value) : M unit := λ st,
  let c := ctr st in
  mret ()
    (with_ctr {| configurations := configurations c;
                 providers := providers c;
                 instances := <[t := result]> (instances c) |} st).

(** func (c *Container) resolve(t reflect.Type) (reflect.Value, error) *)
Fixpoint resolve (fuel : nat) (t : GoType) : M Value := λ st,
  match fuel with
  | 0 => None
  | S fuel' =>
      match instances (ctr st) !! t with
      | Some inst => mret inst st
      | None =>
          match providers (ctr st) !! t with
          | None => mfail (Errorf_no_provider t) st
          | Some provider =>
              (let* args := resolve_args (resolve fuel') (fn_in (Value_ provider)) in
               let* out := Call (Constructed t) (Value_ provider) args in
               let* _ := check_error (Value_ provider) out in
               let* result := match out with
                              | out0 :: _ => mret out0
                              | [] => mpanic panic_index
                              end in
               let* _ := match Scope_ provider with
                         | ScopeSingleton => store_instance t result
                         | ScopeTransient => mret ()
                         end in
               mret result) st
          end
      end
  end.

(** func (c *Container) Invoke(fn any) error *)
Definition Invoke (fuel : nat) (fn : Any) : M unit :=
  match fn with
  | AFunc v =>
      let* args := resolve_args (resolve fuel) (fn_in v) in
      let* _ := Call Invoked v args in
      mret ()
  | _ => mfail (errors_New "invoke expects a function")
  end.

(** field.Set(val), for the i-th field of the struct variable at [addr] *)
Definition Field_Set (addr i : nat) (val : Value) : M unit := λ st,
  match heap st !! addr with
  | None => mpanic panic_dangling st
  | Some s =>
      match s_fields s !! i with
      | None => mpanic panic_index st
      | Some f =>
          if is_exported (f_name f)
          then mret () {| ctr := ctr st; world := world st;
                          heap := <[addr := set_field i val s]> (heap st);
                          calls := calls st |}
          else mpanic panic_unexported st
      end
  end.

(** The loop of Bind over the fields [i, i+1, ...] whose declared types
    are [types]. *)
Fixpoint Bind_fields (fuel : nat) (addr i : nat) (types : list GoType) : M unit :=
  match types with
  | [] => mret ()
  | fieldType :: rest =>
      let* val := resolve fuel fieldType in
      let* _ := Field_Set addr i val in
      Bind_fields fuel addr (S i) rest
  end.

(** func (c *Container) Bind(out any) error *)
Definition Bind (fuel : nat) (out : Any) : M unit :=
  match out with
  | AStructPtr addr => λ st,
      match heap st !! addr with
      | None => mpanic panic_dangling st
      | Some s => Bind_fields fuel addr 0 (f_type <$> s_fields s) st
      end
  | ANilPtr _ => mpanic panic_zero_Value          (* v.Type() of the zero Value *)
  | AOtherPtr _ => mpanic panic_NumField          (* v.NumField() *)
  | ANil | AFunc _ | AValue _ _ => mpanic panic_Elem   (* reflect.ValueOf(out).Elem() *)
  end.

(** func (c *Container) Configure(key string, constructor any) error *)
Definition Configure (key : string) (constructor : Any) : M unit :=
  let* (t, _) := mlift (spec constructor) in
  let* _ := AddSingleton constructor in
  λ st,
    let c := ctr st in
    mret ()
      (with_ctr {| configurations := <[key := t]> (configurations c);
                   providers := providers c;
                   instances := instances c |} st).

(** func (c *Container) Get(key string) any: [None] is the result of the two
    [return nil], [Some v] is [v.Interface()] for the resolved instance [v]
    (for a nil instance of an interface type this is the nil interface
    again). *)
Definition Get (fuel : nat) (key : string) : M (option Value) := λ st,
  match configurations (ctr st) !! key with
  | None => mret None st
  | Some t =>
      match resolve fuel t st with
      | None => None
      | Some (Ok v, st1) => mret (Some v) st1
      | Some (Err _, st1) => mret None st1
      | Some (Panic msg, st1) => mpanic msg st1
      end
  end.
End Operations.

(** ** Reasoning about the monad and about how a call changes the state *)
Section Properties.
Context {World : Type}.
#[local] Abbreviation Func := (Func World).
#[local] Abbreviation Any := (Any World).
#[local] Abbreviation Spec := (Spec World).
#[local] Abbreviation Container := (Container World).
#[local] Abbreviation Event := (Event World).
#[local] Abbreviation State := (State World).
#[local] Abbreviation M := (M World).

Implicit Types (st : State) (t T X : GoType) (p : Spec) (f : Func) (n fuel : nat).

Lemma mbind_inv {A B} (m : M A) (k : A → M B) st r st' :
  mbind m k st = Some (r, st') →
  (∃ a st1, m st = Some (Ok a, st1) ∧ k a st1 = Some (r, st')) ∨
  (∃ e, m st = Some (Err e, st') ∧ r = Err e) ∨
  (∃ msg, m st = Some (Panic msg, st') ∧ r = Panic msg).
Proof.
  unfold mbind. destruct (m st) as [[[a|e|msg] st1]|]; intros H; simplify_eq; eauto 6.
Qed.

Lemma mbind_Ok {A B} (m : M A) (k : A → M B) st a st1 :
  m st = Some (Ok a, st1) → mbind m k st = k a st1.
Proof. unfold mbind. by intros ->. Qed.

Lemma mbind_Err {A B} (m : M A) (k : A → M B) st e st1 :
  m st = Some (Err e, st1) → mbind m k st = Some (Err e, st1).
Proof. unfold mbind. by intros ->. Qed.

Lemma mbind_Panic {A B} (m : M A) (k : A → M B) st msg st1 :
  m st = Some (Panic msg, st1) → mbind m k st = Some (Panic msg, st1).
Proof. unfold mbind. by intros ->. Qed.

(** The calls logged between two states of one run. *)
Definition new_calls (st st' : State) : list Event :=
  drop (length (calls st)) (calls st').

(** [frame st st']: the registry, the configurations and the heap are
    untouched, the log is extended, and what was cached is still cached
    (possibly with another value: [grows] below excludes that). *)
Record frame (st st' : State) : Prop := {
  frame_providers : providers (ctr st') = providers (ctr st);
  frame_configurations : configurations (ctr st') = configurations (ctr st);
  frame_heap : heap st' = heap st;
  frame_calls : calls st' = calls st ++ new_calls st st';
  frame_uncached : ∀ t, instances (ctr st') !! t = None → instances (ctr st) !! t = None
}.

Lemma new_calls_app st evs st' :
  calls st' = calls st ++ evs → new_calls st st' = evs.
Proof. unfold new_calls. intros ->. by rewrite drop_app_length. Qed.

Lemma new_calls_refl st : new_calls st st = [].
Proof. apply new_calls_app. by rewrite app_nil_r. Qed.

Lemma frame_refl st : frame st st.
Proof.
  split; try done. by rewrite new_calls_refl, app_nil_r.
Qed.

Lemma new_calls_trans st st1 st2 :
  frame st st1 → frame st1 st2 →
  new_calls st st2 = new_calls st st1 ++ new_calls st1 st2.
Proof.
  intros H1 H2. apply new_calls_app.
  by rewrite (frame_calls _ _ H2), (frame_calls _ _ H1) at 1; rewrite <-app_assoc.
Qed.

Lemma frame_trans st st1 st2 : frame st st1 → frame st1 st2 → frame st st2.
Proof.
  intros H1 H2. split.
  - by rewrite (frame_providers _ _ H2), (frame_providers _ _ H1).
  - by rewrite (frame_configurations _ _ H2), (frame_configurations _ _ H1).
  - by rewrite (frame_heap _ _ H2), (frame_heap _ _ H1).
  - rewrite (new_calls_trans _ _ _ H1 H2), app_assoc.
    by rewrite <-(frame_calls _ _ H1), <-(frame_calls _ _ H2).
  - intros t Ht. by apply (frame_uncached _ _ H1), (frame_uncached _ _ H2).
Qed.

Lemma Call_inv ev f args st r st' :
  Call ev f args st = Some (r, st') →
  (∃ body out w, fn_body f = Some body ∧ body args (world st) = (out, w) ∧ r = Ok out ∧
     st' = {| ctr := ctr st; world := w; heap := heap st; calls := calls st ++ [ev f args] |}) ∨
  (fn_body f = None ∧ r = Panic panic_nil_func ∧ st' = st).
Proof.
  unfold Call. destruct (fn_body f) as [body|]; [|unfold mpanic; intros; simplify_eq; eauto].
  destruct (body args (world st)) as [out w] eqn:E. unfold mret. intros; simplify_eq.
  left; eauto 10.
Qed.

Lemma Call_frame ev f args st r st' :
  Call ev f args st = Some (r, st') →
  frame st st' ∧ instances (ctr st') = instances (ctr st) ∧
  (new_calls st st' = [] ∨ new_calls st st' = [ev f args]).
Proof.
  intros [(body & out & w & _ & _ & _ & ->)|(_ & _ & ->)]%Call_inv.
  - assert (Hn : new_calls st {| ctr := ctr st; world := w; heap := heap st;
                                calls := calls st ++ [ev f args] |} = [ev f args])
      by by apply new_calls_app.
    split_and!; [split; simpl; try done; by rewrite Hn|done|by right].
  - split_and!; [apply frame_refl|done|left; apply new_calls_refl].
Qed.

Lemma check_error_inv f out st r st' :
  check_error f out st = Some (r, st') → st' = st.
Proof.
  unfold check_error, mret, mfail, mpanic. intros H.
  repeat (case_match; simplify_eq); done.
Qed.

Lemma store_instance_inv t v st r st' :
  store_instance t v st = Some (r, st') →
  r = Ok () ∧
  st' = with_ctr {| configurations := configurations (ctr st);
                    providers := providers (ctr st);
                    instances := <[t := v]> (instances (ctr st)) |} st.
Proof. unfold store_instance, mret. by intros; simplify_eq. Qed.

Lemma resolve_S_cached n t st inst :
  instances (ctr st) !! t = Some inst → resolve (S n) t st = Some (Ok inst, st).
Proof. simpl. by intros ->. Qed.

Lemma resolve_S_no_provider n t st :
  instances (ctr st) !! t = None → providers (ctr st) !! t = None →
  resolve (S n) t st = Some (Err (Errorf_no_provider t), st).
Proof. simpl. by intros -> ->. Qed.

(** The part of [resolve] that follows the resolution of the arguments:
    the call of the constructor and what is done with its outputs. *)
Definition construct (t : GoType) (p : Spec) (args : list Value) : M Value :=
  let* out := Call (Constructed t) (Value_ p) args in
  let* _ := check_error (Value_ p) out in
  let* result := match out with
                 | out0 :: _ => mret out0
                 | [] => mpanic panic_index
                 end in
  let* _ := match Scope_ p with
            | ScopeSingleton => store_instance t result
            | ScopeTransient => mret ()
            end in
  mret result.

Lemma resolve_S_provider n t st p :
  instances (ctr st) !! t = None → providers (ctr st) !! t = Some p →
  resolve (S n) t st =
    (let* args := resolve_args (resolve n) (fn_in (Value_ p)) in construct t p args) st.
Proof. simpl. by intros -> ->. Qed.

Definition scope_store (sc : Scope) (t : GoType) (v : Value)
    (m : gmap GoType Value) : gmap GoType Value :=
  match sc with
  | ScopeSingleton => <[t := v]> m
  | ScopeTransient => m
  end.

(** Every way [construct] can end. *)
Lemma construct_inv t p args st r st' :
  construct t p args st = Some (r, st') →
  providers (ctr st') = providers (ctr st) ∧
  configurations (ctr st') = configurations (ctr st) ∧
  heap st' = heap st ∧
  ((fn_body (Value_ p) = None ∧ r = Panic panic_nil_func ∧ st' = st) ∨
   (∃ body out w,
      fn_body (Value_ p) = Some body ∧ body args (world st) = (out, w) ∧
      world st' = w ∧
      calls st' = calls st ++ [Constructed t (Value_ p) args] ∧
      ((∃ v, r = Ok v ∧ head out = Some v ∧
             instances (ctr st') = scope_store (Scope_ p) t v (instances (ctr st))) ∨
       ((∀ v, r ≠ Ok v) ∧ instances (ctr st') = instances (ctr st))))).
Proof.
  unfold construct. intros H.
  apply mbind_inv in H as [(out & st1 & Hc & H)|[(e & Hc & ->)|(msg & Hc & ->)]];
    apply Call_inv in Hc as [(body & out' & w & Hb & Hbody & ? & ->)|(Hb & ? & ->)];
    simplify_eq; [|by eauto 10].
  set (st1 := {| ctr := ctr st; world := w; heap := heap st;
                 calls := calls st ++ [Constructed t (Value_ p) args] |}) in *.
  apply mbind_inv in H as [([] & st2 & Hc & H)|[(e & Hc & ->)|(msg & Hc & ->)]];
    pose proof (check_error_inv _ _ _ _ _ Hc) as ->.
  2,3: split_and!; try done; right; exists body, out', w; split_and!; try done;
       right; by split_and!.
  destruct out' as [|out0 out'].
  { unfold mbind, mpanic in H. simplify_eq. split_and!; try done. right.
    exists body, [], w. split_and!; try done. right. by split_and!. }
  rewrite (mbind_Ok _ _ _ out0 st1) in H by done.
  destruct (Scope_ p) eqn:Hs.
  - unfold mbind, mret in H. simplify_eq. split_and!; try done. right.
    exists body, (out0 :: out'), w. split_and!; try done. left.
    exists out0. by split_and!.
  - unfold mbind, store_instance, mret in H. simplify_eq. split_and!; try done. right.
    exists body, (out0 :: out'), w. split_and!; try done. left.
    exists out0. by split_and!.
Qed.

Lemma construct_frame t p args st r st' :
  construct t p args st = Some (r, st') → frame st st'.
Proof.
  intros (Hp & Hc & Hh & [(_ & _ & ->)|(body & out & w & _ & _ & _ & Hcalls & Hi)])%construct_inv;
    [apply frame_refl|].
  split; try done.
  - by rewrite (new_calls_app _ _ _ Hcalls).
  - intros X HX. destruct Hi as [(v & _ & _ & Hi)|[_ Hi]]; rewrite Hi in HX; [|done].
    destruct (Scope_ p); simpl in HX; [done|].
    by apply lookup_insert_None in HX as [? _].
Qed.

(** A loop over argument types inherits every reflexive and transitive
    relation between states that each single resolution establishes. *)
Lemma resolve_args_rel (R : State → State → Prop) (rec : GoType → M Value) :
  (∀ st, R st st) →
  (∀ st st1 st2, R st st1 → R st1 st2 → R st st2) →
  (∀ t st r st', rec t st = Some (r, st') → R st st') →
  ∀ ins st r st', resolve_args rec ins st = Some (r, st') → R st st'.
Proof.
  intros Hrefl Htrans Hrec ins.
  induction ins as [|t ins IH]; intros st r st' H; simpl in H.
  - unfold mret in H. by simplify_eq.
  - apply mbind_inv in H as [(v & st1 & H1 & H)|[(e & H1 & ->)|(msg & H1 & ->)]]; [|by eauto..].
    apply mbind_inv in H as [(vs & st2 & H2 & H)|[(e & H2 & ->)|(msg & H2 & ->)]].
    + unfold mret in H. simplify_eq. eauto.
    + eauto.
    + eauto.
Qed.

Lemma resolve_frame n : ∀ t st r st', resolve n t st = Some (r, st') → frame st st'.
Proof.
  induction n as [|n IH]; intros t st r st' H; [done|].
  destruct (instances (ctr st) !! t) as [inst|] eqn:Hi.
  { rewrite (resolve_S_cached _ _ _ _ Hi) in H. simplify_eq. apply frame_refl. }
  destruct (providers (ctr st) !! t) as [p|] eqn:Hp.
  2:{ rewrite (resolve_S_no_provider _ _ _ Hi Hp) in H. simplify_eq. apply frame_refl. }
  rewrite (resolve_S_provider _ _ _ _ Hi Hp) in H.
  apply mbind_inv in H as [(args & st1 & H1 & H)|[(e & H1 & ->)|(msg & H1 & ->)]].
  - eapply frame_trans; [|by eapply construct_frame].
    eapply (resolve_args_rel frame); eauto using frame_refl, frame_trans.
  - eapply (resolve_args_rel frame); eauto using frame_refl, frame_trans.
  - eapply (resolve_args_rel frame); eauto using frame_refl, frame_trans.
Qed.

Lemma resolve_args_frame n ins st r st' :
  resolve_args (resolve n) ins st = Some (r, st') → frame st st'.
Proof.
  apply (resolve_args_rel frame); eauto using frame_refl, frame_trans, resolve_frame.
Qed.

(** *** Types that can never be constructed

    A set of types is [stuck] when none of its members is cached and each
    has a provider one of whose parameters is again in the set.  No member
    of a stuck set is ever constructed: a resolution that comes across one
    fails, panics or does not return. *)
Definition stuck (S : GoType → Prop) (st : State) : Prop :=
  ∀ X, S X →
    instances (ctr st) !! X = None ∧
    ∃ p d, providers (ctr st) !! X = Some p ∧ d ∈ fn_in (Value_ p) ∧ S d.

Definition no_call_for (S : GoType → Prop) (evs : list Event) : Prop :=
  ∀ ev X, ev ∈ evs → constructed_for X ev → ¬ S X.

Lemma resolve_args_stuck (S : GoType → Prop) (rec : GoType → M Value) :
  (∀ t st r st', rec t st = Some (r, st') → frame st st') →
  (∀ t st r st', stuck S st → rec t st = Some (r, st') →
     stuck S st' ∧ (S t → ∀ v, r ≠ Ok v) ∧ no_call_for S (new_calls st st')) →
  ∀ ins st r st', stuck S st → resolve_args rec ins st = Some (r, st') →
    stuck S st' ∧ ((∃ d, d ∈ ins ∧ S d) → ∀ vs, r ≠ Ok vs) ∧
    no_call_for S (new_calls st st').
Proof.
  intros Hframe Hrec ins.
  induction ins as [|t ins IH]; intros st r st' Hst H; simpl in H.
  - unfold mret in H. simplify_eq. split_and!; [done| |].
    + by intros (d & ?%elem_of_nil & _).
    + rewrite new_calls_refl. by intros ev X ?%elem_of_nil.
  - apply mbind_inv in H as [(v & st1 & H1 & H)|[(e & H1 & ->)|(msg & H1 & ->)]].
    2,3: destruct (Hrec _ _ _ _ Hst H1) as (? & ? & ?); by split_and!.
    destruct (Hrec _ _ _ _ Hst H1) as (Hst1 & Hv & Hn1).
    assert (∃ r2, resolve_args rec ins st1 = Some (r2, st') ∧
                  ((∀ vs, r2 ≠ Ok vs) → ∀ vs, r ≠ Ok vs)) as (r2 & H2 & Hr).
    { apply mbind_inv in H as [(vs & st2 & H2 & H)|[(e & H2 & ->)|(msg & H2 & ->)]];
        [unfold mret in H; simplify_eq|..]; eauto. }
    destruct (IH _ _ _ Hst1 H2) as (Hst' & Hvs & Hn2).
    assert (Hf1 : frame st st1) by eauto.
    assert (Hf2 : frame st1 st').
    { eapply (resolve_args_rel frame); eauto using frame_refl, frame_trans. }
    split_and!; [done| |].
    + intros (d & [->|Hd]%elem_of_cons & HS).
      * by destruct (Hv HS v).
      * apply Hr, Hvs. eauto.
    + rewrite (new_calls_trans _ _ _ Hf1 Hf2).
      intros ev X [?|?]%elem_of_app; eauto.
Qed.

Lemma resolve_stuck (S : GoType → Prop) n :
  ∀ t st r st', stuck S st → resolve n t st = Some (r, st') →
    stuck S st' ∧ (S t → ∀ v, r ≠ Ok v) ∧ no_call_for S (new_calls st st').
Proof.
  induction n as [|n IH]; intros t st r st' Hst H; [done|].
  assert (Hnil : no_call_for S (new_calls st st)).
  { rewrite new_calls_refl. by intros ev X ?%elem_of_nil. }
  destruct (instances (ctr st) !! t) as [inst|] eqn:Hi.
  { rewrite (resolve_S_cached _ _ _ _ Hi) in H. simplify_eq. split_and!; [done| |done].
    intros HS. destruct (Hst _ HS) as [? _]. congruence. }
  destruct (providers (ctr st) !! t) as [p|] eqn:Hp.
  2:{ rewrite (resolve_S_no_provider _ _ _ Hi Hp) in H. by simplify_eq. }
  rewrite (resolve_S_provider _ _ _ _ Hi Hp) in H.
  pose proof (resolve_args_stuck S (resolve n) (resolve_frame n) IH) as Hargs.
  apply mbind_inv in H as [(args & st1 & H1 & H)|[(e & H1 & ->)|(msg & H1 & ->)]].
  2,3: destruct (Hargs _ _ _ _ Hst H1) as (? & ? & ?); by split_and!.
  destruct (Hargs _ _ _ _ Hst H1) as (Hst1 & Hvs & Hn1).
  assert (HnS : ¬ S t).
  { intros HS. destruct (Hst _ HS) as (_ & p' & d & Hp' & Hd & HSd).
    simplify_eq. by eapply Hvs; eauto. }
  pose proof (resolve_args_frame _ _ _ _ _ H1) as Hf1.
  pose proof (construct_frame _ _ _ _ _ _ H) as Hf2.
  apply construct_inv in H
    as (Hpr & _ & _ & [(_ & -> & ->)|(body & out & w & _ & _ & _ & Hcalls & Hinst)]).
  { by split_and!. }
  split_and!; [|done|].
  - intros X HX. destruct (Hst1 _ HX) as (HiX & p' & d & Hp' & Hd & HSd).
    split; [|exists p', d; by rewrite Hpr].
    destruct Hinst as [(v & _ & _ & ->)|[_ ->]]; [|done].
    destruct (Scope_ p); simpl; [done|].
    rewrite lookup_insert_ne; [done|]. by intros ->.
  - rewrite (new_calls_trans _ _ _ Hf1 Hf2), (new_calls_app _ _ _ Hcalls).
    intros ev X [?|Hev%list_elem_of_singleton]%elem_of_app; [eauto|subst ev].
    simpl. by intros ->.
Qed.

(** *** What a resolution can touch

    [Reach st t X]: [X] is reached from [t] along provider parameters,
    through types that are not cached in [st] and have a provider. *)
Inductive Reach (st : State) : GoType → GoType → Prop :=
  | reach_here X p :
      instances (ctr st) !! X = None → providers (ctr st) !! X = Some p →
      Reach st X X
  | reach_step t p d X :
      instances (ctr st) !! t = None → providers (ctr st) !! t = Some p →
      d ∈ fn_in (Value_ p) → Reach st d X →
      Reach st t X.

(** [X] was cached or its constructor was called between [st] and [st']. *)
Definition touched (st st' : State) (X : GoType) : Prop :=
  (instances (ctr st) !! X = None ∧ is_Some (instances (ctr st') !! X)) ∨
  (∃ ev, ev ∈ new_calls st st' ∧ constructed_for X ev).

Lemma Reach_frame st st1 t X : frame st st1 → Reach st1 t X → Reach st t X.
Proof.
  intros Hf. induction 1 as [X p Hi Hp|t p d X Hi Hp Hd _ IH].
  - eapply reach_here; [by apply (frame_uncached _ _ Hf)|].
    by rewrite <-(frame_providers _ _ Hf).
  - eapply reach_step; [by apply (frame_uncached _ _ Hf)| |done..].
    by rewrite <-(frame_providers _ _ Hf).
Qed.

Lemma not_touched_refl st X : ¬ touched st st X.
Proof.
  intros [[Hn [v Hv]]|(ev & Hev & _)]; [congruence|].
  rewrite new_calls_refl in Hev. by apply elem_of_nil in Hev.
Qed.

Lemma touched_trans st st1 st2 X :
  frame st st1 → frame st1 st2 →
  touched st st2 X → touched st st1 X ∨ touched st1 st2 X.
Proof.
  intros Hf1 Hf2 [[Hn Hs]|(ev & Hev & Hc)].
  - destruct (instances (ctr st1) !! X) as [v|] eqn:E.
    + left. left. by rewrite E.
    + right. by left.
  - rewrite (new_calls_trans _ _ _ Hf1 Hf2) in Hev.
    apply elem_of_app in Hev as [?|?]; [left|right]; right; eauto.
Qed.

Lemma resolve_args_touched (rec : GoType → M Value) :
  (∀ t st r st', rec t st = Some (r, st') → frame st st') →
  (∀ t st r st' X, rec t st = Some (r, st') → touched st st' X → Reach st t X) →
  ∀ ins st r st' X, resolve_args rec ins st = Some (r, st') → touched st st' X →
    ∃ d, d ∈ ins ∧ Reach st d X.
Proof.
  intros Hframe Hrec ins.
  induction ins as [|t ins IH]; intros st r st' X H Ht; simpl in H.
  - unfold mret in H. simplify_eq. by apply not_touched_refl in Ht.
  - assert (Hhd : ∀ r1, rec t st = Some (r1, st') → ∃ d, d ∈ t :: ins ∧ Reach st d X).
    { intros r1 H1. exists t. split; [by left|eauto]. }
    apply mbind_inv in H as [(v & st1 & H1 & H)|[(e & H1 & ->)|(msg & H1 & ->)]]; [|by eauto..].
    assert (∃ r2, resolve_args rec ins st1 = Some (r2, st')) as (r2 & H2).
    { apply mbind_inv in H as [(vs & st2 & H2 & H)|[(e & H2 & ->)|(msg & H2 & ->)]];
        [unfold mret in H; simplify_eq|..]; eauto. }
    assert (Hf1 : frame st st1) by eauto.
    assert (Hf2 : frame st1 st').
    { eapply (resolve_args_rel frame); eauto using frame_refl, frame_trans. }
    destruct (touched_trans _ _ _ _ Hf1 Hf2 Ht) as [Ht1|Ht2].
    + exists t. split; [by left|eauto].
    + destruct (IH _ _ _ _ H2 Ht2) as (d & Hd & HR).
      exists d. split; [by right|by eapply Reach_frame].
Qed.

Lemma resolve_touched n :
  ∀ t st r st' X, resolve n t st = Some (r, st') → touched st st' X → Reach st t X.
Proof.
  induction n as [|n IH]; intros t st r st' X H Ht; [done|].
  destruct (instances (ctr st) !! t) as [inst|] eqn:Hi.
  { rewrite (resolve_S_cached _ _ _ _ Hi) in H. simplify_eq. by apply not_touched_refl in Ht. }
  destruct (providers (ctr st) !! t) as [p|] eqn:Hp.
  2:{ rewrite (resolve_S_no_provider _ _ _ Hi Hp) in H. simplify_eq.
      by apply not_touched_refl in Ht. }
  rewrite (resolve_S_provider _ _ _ _ Hi Hp) in H.
  pose proof (resolve_args_touched (resolve n) (resolve_frame n) IH) as Hargs.
  assert (Hdeps : ∀ ra st1, resolve_args (resolve n) (fn_in (Value_ p)) st = Some (ra, st1) →
                  touched st st1 X → Reach st t X).
  { intros ra st1 H1 Ht1. destruct (Hargs _ _ _ _ _ H1 Ht1) as (d & Hd & HR).
    by eapply reach_step. }
  apply mbind_inv in H as [(args & st1 & H1 & H)|[(e & H1 & ->)|(msg & H1 & ->)]]; [|by eauto..].
  pose proof (resolve_args_frame _ _ _ _ _ H1) as Hf1.
  pose proof (construct_frame _ _ _ _ _ _ H) as Hf2.
  destruct (touched_trans _ _ _ _ Hf1 Hf2 Ht) as [Ht1|Ht2]; [by eauto|].
  assert (X = t) as ->; [|by eapply reach_here].
  apply construct_inv in H
    as (_ & _ & _ & [(_ & _ & ->)|(body & out & w & _ & _ & _ & Hcalls & Hinst)]).
  { by apply not_touched_refl in Ht2. }
  destruct Ht2 as [[Hn Hs]|(ev & Hev & Hc)].
  - destruct Hinst as [(v & _ & _ & Hinst)|[_ Hinst]]; rewrite Hinst in Hs.
    + destruct (Scope_ p); simpl in Hs; [rewrite Hn in Hs; by destruct Hs|].
      destruct (decide (t = X)) as [|Hne]; [done|].
      rewrite lookup_insert_ne, Hn in Hs by done. by destruct Hs.
    + rewrite Hn in Hs. by destruct Hs.
  - rewrite (new_calls_app _ _ _ Hcalls) in Hev.
    apply list_elem_of_singleton in Hev as ->. done.
Qed.

(** The arguments of [t]'s own constructor are resolved without [t] being
    cached and without a call of a constructor for [t]: a resolution of [t]
    nested in them would have to resolve these very arguments again. *)
Lemma resolve_args_self_untouched n t st p ra st1 :
  instances (ctr st) !! t = None → providers (ctr st) !! t = Some p →
  resolve_args (resolve n) (fn_in (Value_ p)) st = Some (ra, st1) →
  ¬ touched st st1 t.
Proof.
  intros Hi Hp H Ht.
  destruct (resolve_args_touched (resolve n) (resolve_frame n) (resolve_touched n)
              _ _ _ _ _ H Ht) as (d & Hd & HR).
  assert (Hst : stuck (λ Y, Reach st Y t) st).
  { intros Y HY. inversion HY as [? q Hiq Hq|? q d' ? Hiq Hq Hd' HR']; simplify_eq.
    - split; [done|]. by exists p, d.
    - split; [done|]. by exists q, d'. }
  destruct (resolve_args_stuck _ (resolve n) (resolve_frame n)
              (resolve_stuck (λ Y, Reach st Y t) n) _ _ _ _ Hst H) as (Hst1 & _ & Hn).
  assert (Ht' : Reach st t t) by by eapply reach_here.
  destruct Ht as [[_ [v Hv]]|(ev & Hev & Hc)].
  - destruct (Hst1 _ Ht') as [E _]. congruence.
  - by eapply Hn.
Qed.

(** *** The cache only grows

    [grows st st'] adds to [frame] that cached instances keep their value,
    that every new entry belongs to a Singleton provider and that every
    logged call is the call of a registered constructor. *)
Record grows (st st' : State) : Prop := {
  grows_frame : frame st st';
  grows_instances : instances (ctr st) ⊆ instances (ctr st');
  grows_singleton : ∀ X,
    instances (ctr st) !! X = None → is_Some (instances (ctr st') !! X) →
    ∃ p, providers (ctr st) !! X = Some p ∧ Scope_ p = ScopeSingleton;
  grows_events : ∀ ev, ev ∈ new_calls st st' →
    ∃ X p args, ev = Constructed X (Value_ p) args ∧ providers (ctr st) !! X = Some p
}.

Lemma grows_refl st : grows st st.
Proof.
  split; [apply frame_refl|done| |].
  - intros X Hn [v Hv]. congruence.
  - rewrite new_calls_refl. by intros ev ?%elem_of_nil.
Qed.

Lemma grows_trans st st1 st2 : grows st st1 → grows st1 st2 → grows st st2.
Proof.
  intros H1 H2. pose proof (grows_frame _ _ H1) as Hf1. pose proof (grows_frame _ _ H2) as Hf2.
  split.
  - by eapply frame_trans.
  - etrans; [apply (grows_instances _ _ H1)|apply (grows_instances _ _ H2)].
  - intros X Hn Hs. destruct (instances (ctr st1) !! X) as [v|] eqn:E.
    + apply (grows_singleton _ _ H1); [done|]. by rewrite E.
    + rewrite <-(frame_providers _ _ Hf1). by apply (grows_singleton _ _ H2).
  - rewrite (new_calls_trans _ _ _ Hf1 Hf2). intros ev [?|?]%elem_of_app.
    + by apply (grows_events _ _ H1).
    + rewrite <-(frame_providers _ _ Hf1). by apply (grows_events _ _ H2).
Qed.

Lemma grows_cached st st' t v :
  grows st st' → instances (ctr st) !! t = Some v → instances (ctr st') !! t = Some v.
Proof. intros H E. eapply lookup_weaken; [exact E|apply H]. Qed.

Lemma construct_grows t p args st r st' :
  instances (ctr st) !! t = None → providers (ctr st) !! t = Some p →
  construct t p args st = Some (r, st') → grows st st'.
Proof.
  intros Hi Hp H. pose proof (construct_frame _ _ _ _ _ _ H) as Hf.
  apply construct_inv in H
    as (_ & _ & _ & [(_ & _ & ->)|(body & out & w & _ & _ & _ & Hcalls & Hinst)]);
    [apply grows_refl|].
  assert (Hcases : instances (ctr st') = instances (ctr st) ∨
                   Scope_ p = ScopeSingleton ∧
                   ∃ v, instances (ctr st') = <[t := v]> (instances (ctr st))).
  { destruct Hinst as [(v & _ & _ & ->)|[_ ->]]; [|by left].
    destruct (Scope_ p); simpl; [by left|right; eauto]. }
  split; [done| | |].
  - destruct Hcases as [->|(_ & v & ->)]; [done|]. by apply insert_subseteq.
  - intros X Hn Hs. destruct Hcases as [E|(Hsc & v & E)]; rewrite E in Hs.
    + rewrite Hn in Hs. by destruct Hs.
    + destruct (decide (t = X)) as [<-|Hne]; [eauto|].
      rewrite lookup_insert_ne, Hn in Hs by done. by destruct Hs.
  - rewrite (new_calls_app _ _ _ Hcalls). intros ev ->%list_elem_of_singleton. eauto.
Qed.

Lemma resolve_grows n : ∀ t st r st', resolve n t st = Some (r, st') → grows st st'.
Proof.
  induction n as [|n IH]; intros t st r st' H; [done|].
  destruct (instances (ctr st) !! t) as [inst|] eqn:Hi.
  { rewrite (resolve_S_cached _ _ _ _ Hi) in H. simplify_eq. apply grows_refl. }
  destruct (providers (ctr st) !! t) as [p|] eqn:Hp.
  2:{ rewrite (resolve_S_no_provider _ _ _ Hi Hp) in H. simplify_eq. apply grows_refl. }
  rewrite (resolve_S_provider _ _ _ _ Hi Hp) in H.
  pose proof (resolve_args_rel grows (resolve n) grows_refl grows_trans IH) as Hargs.
  apply mbind_inv in H as [(args & st1 & H1 & H)|[(e & H1 & ->)|(msg & H1 & ->)]]; [|by eauto..].
  pose proof (Hargs _ _ _ _ H1) as Hg1.
  eapply grows_trans; [done|].
  eapply construct_grows; [| |done].
  - destruct (instances (ctr st1) !! t) as [v|] eqn:E; [|done].
    destruct (resolve_args_self_untouched _ _ _ _ _ _ Hi Hp H1). left. by rewrite E.
  - by rewrite (frame_providers _ _ (grows_frame _ _ Hg1)).
Qed.

Lemma resolve_args_grows n ins st r st' :
  resolve_args (resolve n) ins st = Some (r, st') → grows st st'.
Proof. apply (resolve_args_rel grows); eauto using grows_refl, grows_trans, resolve_grows. Qed.

(** *** The recursion budget

    A resolution that returns within a budget returns the same result and
    state within any larger one: the budget only separates the runs that
    return from those that do not. *)
Lemma resolve_args_mono (rec rec' : GoType → M Value) :
  (∀ t st x, rec t st = Some x → rec' t st = Some x) →
  ∀ ins st x, resolve_args rec ins st = Some x → resolve_args rec' ins st = Some x.
Proof.
  intros Hrec. induction ins as [|t ins IH]; intros st x H; simpl in *; [done|].
  unfold mbind in *.
  destruct (rec t st) as [[[v|e|msg] st1]|] eqn:E; [|by rewrite (Hrec _ _ _ E)..|done].
  rewrite (Hrec _ _ _ E).
  destruct (resolve_args rec ins st1) as [[[vs|e|msg] st2]|] eqn:E2;
    [by rewrite (IH _ _ E2)..|done].
Qed.

Lemma resolve_fuel_mono n :
  ∀ m t st x, n ≤ m → resolve n t st = Some x → resolve m t st = Some x.
Proof.
  induction n as [|n IH]; intros m t st x Hle H; [done|].
  destruct m as [|m]; [lia|].
  destruct (instances (ctr st) !! t) as [inst|] eqn:Hi.
  { rewrite (resolve_S_cached n _ _ _ Hi) in H. by rewrite (resolve_S_cached m _ _ _ Hi). }
  destruct (providers (ctr st) !! t) as [p|] eqn:Hp.
  2:{ rewrite (resolve_S_no_provider n _ _ Hi Hp) in H.
      by rewrite (resolve_S_no_provider m _ _ Hi Hp). }
  rewrite (resolve_S_provider n _ _ _ Hi Hp) in H.
  rewrite (resolve_S_provider m _ _ _ Hi Hp).
  unfold mbind in *.
  destruct (resolve_args (resolve n) (fn_in (Value_ p)) st) as [y|] eqn:E; [|done].
  rewrite (resolve_args_mono (resolve n) (resolve m) (λ t' st' x', IH m t' st' x' ltac:(lia))
             _ _ _ E).
  done.
Qed.

(** *** Any sequence of container operations

    [Op] names the public operations and [resolve]; [exec] runs one of
    them and keeps the state it leaves (also when it fails or panics),
    [run] runs a sequence, each operation with its own recursion budget. *)
Inductive Op : Type :=
  | OpAdd (constructor : Any)
  | OpAddSingleton (constructor : Any)
  | OpAddWithScope (scope : Scope) (constructor : Any)
  | OpConfigure (key : string) (constructor : Any)
  | OpResolve (t : GoType)
  | OpInvoke (fn : Any)
  | OpBind (out : Any)
  | OpGet (key : string).

Definition state_of {A} (o : option (result A * State)) : option State := snd <$> o.

Definition exec (fuel : nat) (op : Op) (st : State) : option State :=
  match op with
  | OpAdd c => state_of (Add c st)
  | OpAddSingleton c => state_of (AddSingleton c st)
  | OpAddWithScope sc c => state_of (AddWithScope sc c st)
  | OpConfigure key c => state_of (Configure key c st)
  | OpResolve t => state_of (resolve fuel t st)
  | OpInvoke fn => state_of (Invoke fuel fn st)
  | OpBind out => state_of (Bind fuel out st)
  | OpGet key => state_of (Get fuel key st)
  end.

Fixpoint run (ops : list (nat * Op)) (st : State) : option State :=
  match ops with
  | [] => Some st
  | (fuel, op) :: ops' =>
      match exec fuel op st with
      | Some st1 => run ops' st1
      | None => None
      end
  end.

Lemma AddWithScope_inv sc c st r st' :
  AddWithScope sc c st = Some (r, st') →
  (∃ t v, spec c = Ok (t, v) ∧ r = Ok () ∧
          st' = with_ctr {| configurations := configurations (ctr st);
                            providers := <[t := {| Type_ := t; Value_ := v; Scope_ := sc |}]>
                                           (providers (ctr st));
                            instances := instances (ctr st) |} st) ∨
  ((∀ tv, spec c ≠ Ok tv) ∧ (∀ u, r ≠ Ok u) ∧ st' = st).
Proof.
  unfold AddWithScope, mbind, mlift, mret.
  destruct (spec c) as [[t v]|e|msg]; intros; simplify_eq; [left; eauto 10|right..]; done.
Qed.

Lemma AddWithScope_instances sc c st r st' :
  AddWithScope sc c st = Some (r, st') → instances (ctr st') = instances (ctr st).
Proof. by intros [(t & v & _ & _ & ->)|(_ & _ & ->)]%AddWithScope_inv. Qed.

Lemma Configure_instances key c st r st' :
  Configure key c st = Some (r, st') → instances (ctr st') = instances (ctr st).
Proof.
  unfold Configure, AddSingleton. intros H.
  apply mbind_inv in H as [([t v] & st1 & H1 & H)|[(e & H1 & ->)|(msg & H1 & ->)]];
    unfold mlift in H1; simplify_eq; [|done..].
  apply mbind_inv in H as [([] & st2 & H1 & H)|[(e & H1 & ->)|(msg & H1 & ->)]];
    apply AddWithScope_instances in H1; [|done..].
  unfold mret in H. by simplify_eq.
Qed.

Lemma Invoke_instances n fn st r st' :
  Invoke n fn st = Some (r, st') → instances (ctr st) ⊆ instances (ctr st').
Proof.
  destruct fn as [|v| | | |]; simpl; try (unfold mfail; intros; by simplify_eq).
  intros H.
  apply mbind_inv in H as [(args & st1 & H1 & H)|[(e & H1 & ->)|(msg & H1 & ->)]];
    pose proof (grows_instances _ _ (resolve_args_grows _ _ _ _ _ H1)) as Hg; [|done..].
  apply mbind_inv in H as [(out & st2 & H2 & H)|[(e & H2 & ->)|(msg & H2 & ->)]];
    apply Call_frame in H2 as (_ & Hi & _); [|by rewrite Hi..].
  unfold mret in H. simplify_eq. by rewrite Hi.
Qed.

Lemma Field_Set_inv addr i val st r st' :
  Field_Set addr i val st = Some (r, st') →
  ctr st' = ctr st ∧ world st' = world st ∧ calls st' = calls st ∧
  ((∃ s fld, heap st !! addr = Some s ∧ s_fields s !! i = Some fld ∧
           is_exported (f_name fld) = true ∧ r = Ok () ∧
           heap st' = <[addr := set_field i val s]> (heap st)) ∨
   ((∀ u, r ≠ Ok u) ∧ st' = st)).
Proof.
  unfold Field_Set, mret, mpanic. intros H.
  repeat (case_match; simplify_eq); split_and!; try done; eauto 10.
Qed.

Lemma Bind_fields_instances n addr :
  ∀ types i st r st', Bind_fields n addr i types st = Some (r, st') →
    instances (ctr st) ⊆ instances (ctr st').
Proof.
  induction types as [|t types IH]; intros i st r st' H; simpl in H.
  { unfold mret in H. by simplify_eq. }
  apply mbind_inv in H as [(val & st1 & H1 & H)|[(e & H1 & ->)|(msg & H1 & ->)]];
    pose proof (grows_instances _ _ (resolve_grows _ _ _ _ _ H1)) as Hg; [|done..].
  apply mbind_inv in H as [([] & st2 & H2 & H)|[(e & H2 & ->)|(msg & H2 & ->)]];
    apply Field_Set_inv in H2 as (Hc & _); [|by rewrite Hc..].
  etrans; [exact Hg|]. rewrite <-Hc. eauto.
Qed.

Lemma Bind_instances n out st r st' :
  Bind n out st = Some (r, st') → instances (ctr st) ⊆ instances (ctr st').
Proof.
  destruct out as [| |addr| | |]; simpl; try (unfold mpanic; intros; by simplify_eq).
  destruct (heap st !! addr); [apply Bind_fields_instances|].
  unfold mpanic; intros; by simplify_eq.
Qed.

Lemma Get_instances n key st r st' :
  Get n key st = Some (r, st') → instances (ctr st) ⊆ instances (ctr st').
Proof.
  unfold Get. destruct (configurations (ctr st) !! key) as [t|];
    [|unfold mret; intros; by simplify_eq].
  destruct (resolve n t st) as [[[v|e|msg] st1]|] eqn:E; [..|done];
    unfold mret, mpanic; intros; simplify_eq;
    apply (grows_instances _ _ (resolve_grows _ _ _ _ _ E)).
Qed.

Lemma exec_instances n op st st' :
  exec n op st = Some st' → instances (ctr st) ⊆ instances (ctr st').
Proof.
  unfold state_of. destruct op; simpl; unfold Add, AddSingleton;
    intros ([r s] & H & ?)%fmap_Some; simplify_eq; simpl.
  1-3: by rewrite (AddWithScope_instances _ _ _ _ _ H).
  - by rewrite (Configure_instances _ _ _ _ _ H).
  - apply (grows_instances _ _ (resolve_grows _ _ _ _ _ H)).
  - by eapply Invoke_instances.
  - by eapply Bind_instances.
  - by eapply Get_instances.
Qed.

Lemma run_instances ops :
  ∀ st st', run ops st = Some st' → instances (ctr st) ⊆ instances (ctr st').
Proof.
  induction ops as [|[n op] ops IH]; intros st st' H; simpl in H; [by simplify_eq|].
  destruct (exec n op st) as [st1|] eqn:E; [|done].
  etrans; [by eapply exec_instances|by eapply IH].
Qed.

(** *** One resolution of an uncached type *)
Lemma constructions_app t (l1 l2 : list Event) :
  constructions t (l1 ++ l2) = constructions t l1 + constructions t l2.
Proof. unfold constructions. by rewrite filter_app, length_app. Qed.

Lemma constructions_none t (l : list Event) :
  (∀ ev, ev ∈ l → ¬ constructed_for t ev) → constructions t l = 0.
Proof.
  unfold constructions. induction l as [|ev l IH]; intros H; [done|].
  rewrite filter_cons_False by (apply H; by left).
  apply IH. intros ev' ?. apply H. by right.
Qed.

Lemma resolve_provider_inv n t st p r st' :
  instances (ctr st) !! t = None → providers (ctr st) !! t = Some p →
  resolve n t st = Some (r, st') →
  ∃ n' ra st1,
    n = S n' ∧
    resolve_args (resolve n') (fn_in (Value_ p)) st = Some (ra, st1) ∧
    grows st st1 ∧
    instances (ctr st1) !! t = None ∧
    constructions t (new_calls st st1) = 0 ∧
    match ra with
    | Ok args => construct t p args st1 = Some (r, st')
    | Err e => r = Err e ∧ st' = st1
    | Panic msg => r = Panic msg ∧ st' = st1
    end.
Proof.
  intros Hi Hp H. destruct n as [|n]; [done|].
  rewrite (resolve_S_provider _ _ _ _ Hi Hp) in H.
  assert (∃ ra st1, resolve_args (resolve n) (fn_in (Value_ p)) st = Some (ra, st1) ∧
            match ra with
            | Ok args => construct t p args st1 = Some (r, st')
            | Err e => r = Err e ∧ st' = st1
            | Panic msg => r = Panic msg ∧ st' = st1
            end) as (ra & st1 & H1 & Hra).
  { apply mbind_inv in H as [(args & st1 & H1 & H)|[(e & H1 & ->)|(msg & H1 & ->)]];
      [exists (Ok args), st1|exists (Err e), st'|exists (Panic msg), st']; by split. }
  exists n, ra, st1. split_and!; try done.
  - by eapply resolve_args_grows.
  - destruct (instances (ctr st1) !! t) as [v|] eqn:E; [|done].
    destruct (resolve_args_self_untouched _ _ _ _ _ _ Hi Hp H1). left. by rewrite E.
  - apply constructions_none. intros ev Hev Hc.
    destruct (resolve_args_self_untouched _ _ _ _ _ _ Hi Hp H1). right. eauto.
Qed.

(** Where [t] stands in the cache after a resolution that started with
    [t] uncached: stored exactly when a Singleton constructor succeeded. *)
Lemma resolve_uncached_result n t st p r st' :
  instances (ctr st) !! t = None → providers (ctr st) !! t = Some p →
  resolve n t st = Some (r, st') →
  instances (ctr st') !! t =
    match r, Scope_ p with
    | Ok v, ScopeSingleton => Some v
    | _, _ => None
    end.
Proof.
  intros Hi Hp H.
  destruct (resolve_provider_inv _ _ _ _ _ _ Hi Hp H)
    as (n' & ra & st1 & -> & H1 & Hg & Hi1 & _ & Hra).
  destruct ra as [args|e|msg]; [|by destruct Hra as [-> ->]..].
  apply construct_inv in Hra
    as (_ & _ & _ & [(_ & -> & ->)|(body & out & w & _ & _ & _ & _ & Hinst)]); [done|].
  destruct Hinst as [(v & -> & _ & ->)|[Hr ->]].
  - destruct (Scope_ p); simpl; [done|]. by rewrite lookup_insert_eq.
  - destruct r as [v| |]; [by destruct (Hr v)|done..].
Qed.

(** How often the constructor of [t] runs in such a resolution: once when
    it returns a value, never more than once. *)
Lemma resolve_constructions n t st p r st' :
  instances (ctr st) !! t = None → providers (ctr st) !! t = Some p →
  resolve n t st = Some (r, st') →
  constructions t (new_calls st st') ≤ 1 ∧
  (∀ v, r = Ok v → constructions t (new_calls st st') = 1).
Proof.
  intros Hi Hp H.
  destruct (resolve_provider_inv _ _ _ _ _ _ Hi Hp H)
    as (n' & ra & st1 & -> & H1 & Hg & Hi1 & Hc & Hra).
  destruct ra as [args|e|msg]; [|destruct Hra as [-> ->]; rewrite Hc; split; [lia|done]..].
  pose proof (construct_frame _ _ _ _ _ _ Hra) as Hf.
  rewrite (new_calls_trans _ _ _ (grows_frame _ _ Hg) Hf), constructions_app, Hc.
  apply construct_inv in Hra
    as (_ & _ & _ & [(_ & -> & ->)|(body & out & w & _ & _ & _ & Hcalls & _)]).
  { rewrite new_calls_refl. split; [cbn; lia|done]. }
  rewrite (new_calls_app _ _ _ Hcalls). unfold constructions.
  rewrite filter_cons_True by done. simpl. split; [lia|done].
Qed.

(** ** The resolver *)

(** C1 (as amended).  For a provider registered with Singleton scope: once
    a resolve call for its produced type [T] has returned a value [v], [v]
    is stored in the instance cache under [T]; that call has executed the
    constructor exactly once if [T] had no cached instance when it started
    and not at all if it had one; and after any further sequence of
    container operations every resolve call for [T] returns this same [v]
    and leaves the whole state, the call log included, as it found it: the
    constructor is not executed again. *)
Theorem singleton_resolved_once n T st p v st1 :
  providers (ctr st) !! T = Some p →
  Scope_ p = ScopeSingleton →
  resolve n T st = Some (Ok v, st1) →
  instances (ctr st1) !! T = Some v ∧
  constructions T (new_calls st st1)
  = match instances (ctr st) !! T with None => 1 | Some _ => 0 end ∧
  ∀ ops st2, run ops st1 = Some st2 →
    ∀ m, resolve (S m) T st2 = Some (Ok v, st2).
Proof.
  intros Hp Hs H.
  assert (Hv : instances (ctr st1) !! T = Some v ∧
               constructions T (new_calls st st1)
               = match instances (ctr st) !! T with None => 1 | Some _ => 0 end).
  { destruct (instances (ctr st) !! T) as [inst|] eqn:Hi.
    - destruct n as [|n]; [done|].
      rewrite (resolve_S_cached _ _ _ _ Hi) in H. simplify_eq.
      by rewrite new_calls_refl.
    - split.
      + rewrite (resolve_uncached_result _ _ _ _ _ _ Hi Hp H). by rewrite Hs.
      + by eapply (resolve_constructions _ _ _ _ _ _ Hi Hp H). }
  destruct Hv as [Hv Hc]. split_and!; [done|done|].
  intros ops st2 Hrun m. apply resolve_S_cached.
  eapply lookup_weaken; [exact Hv|by eapply run_instances].
Qed.

(** C2 (as amended).  When resolve(T) returns an error, the instance cache
    has no entry for [T] afterwards, every entry it had before is still
    there with the same value, and every entry that was added belongs to a
    type with a Singleton-scoped provider (a dependency resolved before the
    failure). *)
Theorem failed_resolve_caches_no_target n T st e st' :
  resolve n T st = Some (Err e, st') →
  instances (ctr st') !! T = None ∧
  instances (ctr st) ⊆ instances (ctr st') ∧
  (∀ X, instances (ctr st) !! X = None → is_Some (instances (ctr st') !! X) →
     ∃ p, providers (ctr st) !! X = Some p ∧ Scope_ p = ScopeSingleton).
Proof.
  intros H. pose proof (resolve_grows _ _ _ _ _ H) as Hg.
  split_and!; [|apply Hg|apply Hg].
  destruct n as [|n]; [done|].
  destruct (instances (ctr st) !! T) as [inst|] eqn:Hi.
  { by rewrite (resolve_S_cached _ _ _ _ Hi) in H. }
  destruct (providers (ctr st) !! T) as [p|] eqn:Hp.
  - by rewrite (resolve_uncached_result _ _ _ _ _ _ Hi Hp H).
  - rewrite (resolve_S_no_provider _ _ _ Hi Hp) in H. by simplify_eq.
Qed.

(** C3 (as amended).  For a provider registered with Transient scope and a
    type [T] without cached instance, a resolve call for [T] that returns
    executes the constructor of [T] at most once: exactly once when the
    call returns a value, and not at all when the resolution of the
    constructor's parameters fails (the call then ends where that
    resolution ended).  It adds no entry for [T] to the instance cache,
    the entries it adds belong to types with a Singleton provider; [T]
    stays uncached and its provider registered, and the next resolve call
    for [T] that returns a value executes the constructor again. *)
Theorem transient_resolve_reruns n T st p r st1 :
  providers (ctr st) !! T = Some p →
  Scope_ p = ScopeTransient →
  instances (ctr st) !! T = None →
  resolve n T st = Some (r, st1) →
  instances (ctr st1) !! T = None ∧
  providers (ctr st1) !! T = Some p ∧
  constructions T (new_calls st st1) ≤ 1 ∧
  (∀ v, r = Ok v → constructions T (new_calls st st1) = 1) ∧
  (∃ n' ra st_a,
     n = S n' ∧
     resolve_args (resolve n') (fn_in (Value_ p)) st = Some (ra, st_a) ∧
     ((∀ args, ra ≠ Ok args) →
      constructions T (new_calls st st1) = 0 ∧ st1 = st_a ∧ ∀ v, r ≠ Ok v)) ∧
  (∀ X, instances (ctr st) !! X = None → is_Some (instances (ctr st1) !! X) →
     ∃ q, providers (ctr st) !! X = Some q ∧ Scope_ q = ScopeSingleton) ∧
  (∀ m v' st2, resolve m T st1 = Some (Ok v', st2) →
     constructions T (new_calls st1 st2) = 1).
Proof.
  intros Hp Hs Hi H.
  assert (Hi1 : instances (ctr st1) !! T = None).
  { rewrite (resolve_uncached_result _ _ _ _ _ _ Hi Hp H), Hs. by destruct r. }
  assert (Hp1 : providers (ctr st1) !! T = Some p).
  { by rewrite (frame_providers _ _ (resolve_frame _ _ _ _ _ H)). }
  destruct (resolve_constructions _ _ _ _ _ _ Hi Hp H) as [Hle Hone].
  split_and!; try done.
  - destruct (resolve_provider_inv _ _ _ _ _ _ Hi Hp H)
      as (n' & ra & st_a & -> & H1 & _ & _ & Hc & Hra).
    exists n', ra, st_a. split_and!; [done|done|].
    intros Hfail. destruct ra as [args|e|msg]; [by destruct (Hfail args)|..];
      destruct Hra as [-> ->]; by rewrite Hc.
  - apply (grows_singleton _ _ (resolve_grows _ _ _ _ _ H)).
  - intros m v' st2 H2. by eapply (resolve_constructions _ _ _ _ _ _ Hi1 Hp1 H2).
Qed.

(** C7.  For a type [T] with neither a cached instance nor a registered
    provider, resolve(T) fails with the error "no provider for type " followed
    by the name of [T], and the state (the instance cache in particular)
    is unchanged. *)
Theorem resolve_no_provider n T st :
  instances (ctr st) !! T = None →
  providers (ctr st) !! T = None →
  resolve (S n) T st
  = Some (Err (VError ("no provider for type " +:+ type_string T)), st).
Proof. intros Hi Hp. by rewrite (resolve_S_no_provider _ _ _ Hi Hp). Qed.

(** C8.  When the constructor registered for [T] (in either scope) returns
    two outputs the second of which is a non-nil error, resolve(T) returns
    that very error; the first output is dropped: the cache is what the
    resolution of the arguments left, and it has no entry for [T]. *)
Theorem constructor_error_discards_output n T st p args st1 body out0 msg w :
  instances (ctr st) !! T = None →
  providers (ctr st) !! T = Some p →
  resolve_args (resolve n) (fn_in (Value_ p)) st = Some (Ok args, st1) →
  fn_body (Value_ p) = Some body →
  body args (world st1) = ([out0; VError msg], w) →
  nilable <$> fn_out (Value_ p) !! 1 = Some true →
  ∃ st', resolve (S n) T st = Some (Err (VError msg), st') ∧
         instances (ctr st') = instances (ctr st1) ∧
         instances (ctr st') !! T = None.
Proof.
  intros Hi Hp H1 Hb Hbody Hnil.
  eexists. split_and!.
  - rewrite (resolve_S_provider _ _ _ _ Hi Hp), (mbind_Ok _ _ _ _ _ H1).
    unfold construct, mbind, Call. rewrite Hb, Hbody. unfold mret, check_error.
    rewrite Hnil. reflexivity.
  - done.
  - simpl. destruct (instances (ctr st1) !! T) as [v|] eqn:E; [|done].
    destruct (resolve_args_self_untouched _ _ _ _ _ _ Hi Hp H1). left. by rewrite E.
Qed.

(** ** Registration *)

(** The registry is keyed by the first output of each constructor; [New]
    satisfies this and [AddWithScope] maintains it. *)
Definition wf_providers (st : State) : Prop :=
  ∀ t p, providers (ctr st) !! t = Some p → head (fn_out (Value_ p)) = Some t.

Lemma spec_Ok (c : Any) t (v : Func) :
  spec c = Ok (t, v) → c = AFunc v ∧ head (fn_out v) = Some t.
Proof.
  destruct c as [|f| | | |]; simpl; try done.
  destruct ((length (fn_out f) =? 0) || (2 <? length (fn_out f))); [done|].
  destruct (fn_out f) as [|t' outs] eqn:E; [done|]. intros ?; simplify_eq.
  by rewrite E.
Qed.

Lemma AddWithScope_wf sc c st r st' :
  wf_providers st → AddWithScope sc c st = Some (r, st') → wf_providers st'.
Proof.
  intros Hwf [(t & v & [_ Hh]%spec_Ok & _ & ->)|(_ & _ & ->)]%AddWithScope_inv; [|done].
  intros t' p'. simpl. destruct (decide (t = t')) as [<-|Hne].
  - rewrite lookup_insert_eq. by intros; simplify_eq.
  - rewrite lookup_insert_ne by done. apply Hwf.
Qed.

Lemma AddWithScope_registers sc f T st stb :
  head (fn_out f) = Some T →
  AddWithScope sc (AFunc f) st = Some (Ok (), stb) →
  providers (ctr stb) = <[T := {| Type_ := T; Value_ := f; Scope_ := sc |}]> (providers (ctr st)).
Proof.
  intros Hh [(t & v & [Hc Hh']%spec_Ok & _ & ->)|(_ & Hr & _)]%AddWithScope_inv;
    [|by destruct (Hr ())].
  by simplify_eq.
Qed.

(** What a resolution of an uncached type returns when the arguments of
    its constructor resolve and the constructor returns a value, alone or
    with a nil error. *)
Lemma resolve_constructs_value n T st p args st1 body out v w :
  instances (ctr st) !! T = None →
  providers (ctr st) !! T = Some p →
  resolve_args (resolve n) (fn_in (Value_ p)) st = Some (Ok args, st1) →
  fn_body (Value_ p) = Some body →
  body args (world st1) = (out, w) →
  out = [v] ∨ (out = [v; VNil] ∧ nilable <$> fn_out (Value_ p) !! 1 = Some true) →
  resolve (S n) T st
  = Some (Ok v,
          {| ctr := {| configurations := configurations (ctr st1);
                       providers := providers (ctr st1);
                       instances := scope_store (Scope_ p) T v (instances (ctr st1)) |};
             world := w; heap := heap st1;
             calls := calls st1 ++ [Constructed T (Value_ p) args] |}).
Proof.
  intros Hi Hp H1 Hb Hbody Hout.
  rewrite (resolve_S_provider _ _ _ _ Hi Hp), (mbind_Ok _ _ _ _ _ H1).
  unfold construct, mbind, Call. rewrite Hb, Hbody. unfold mret, check_error.
  destruct Hout as [->|[-> Hnil]]; [|rewrite Hnil];
    destruct (Scope_ p); simpl; unfold mret, store_instance, with_ctr; simpl;
    try done; by destruct (ctr st1).
Qed.

(** C5 (as amended).  On a container whose registry holds every provider
    under the first output type of its constructor (as [New] and
    [AddWithScope] see to), after two successful registrations of distinct
    constructors [f1] and then [f2] that produce the same type [T] (in any
    scopes, with any resolutions in between), the provider of [T] is [f2]
    with the scope of the second registration.  For as long as the registry
    stays as it is: no resolution calls [f1], and a constructor called for
    [T] is [f2]; a resolve call for [T] made while [T] has no cached
    instance, of which the arguments resolve and for which [f2] returns a
    value (alone or with a nil error), calls [f2] on the resolved arguments
    and returns that value, cached exactly when the second scope is
    Singleton; and while [T] has a cached instance, resolve returns that
    instance and calls nothing. *)
Theorem last_registration_wins sc1 sc2 f1 f2 T st sta sta' stb :
  wf_providers st →
  head (fn_out f1) = Some T →
  head (fn_out f2) = Some T →
  f1 ≠ f2 →
  AddWithScope sc1 (AFunc f1) st = Some (Ok (), sta) →
  providers (ctr sta') = providers (ctr sta) →
  AddWithScope sc2 (AFunc f2) sta' = Some (Ok (), stb) →
  providers (ctr stb) !! T = Some {| Type_ := T; Value_ := f2; Scope_ := sc2 |} ∧
  ∀ st', providers (ctr st') = providers (ctr stb) →
    (∀ n t r st'', resolve n t st' = Some (r, st'') →
       ∀ ev, ev ∈ new_calls st' st'' →
         ¬ calls_func f1 ev ∧ (constructed_for T ev → calls_func f2 ev)) ∧
    (instances (ctr st') !! T = None →
     ∀ n args st1 body out v w,
       resolve_args (resolve n) (fn_in f2) st' = Some (Ok args, st1) →
       fn_body f2 = Some body →
       body args (world st1) = (out, w) →
       out = [v] ∨ (out = [v; VNil] ∧ nilable <$> fn_out f2 !! 1 = Some true) →
       resolve (S n) T st'
       = Some (Ok v,
               {| ctr := {| configurations := configurations (ctr st1);
                            providers := providers (ctr st1);
                            instances := scope_store sc2 T v (instances (ctr st1)) |};
                  world := w; heap := heap st1;
                  calls := calls st1 ++ [Constructed T f2 args] |})) ∧
    (∀ v0, instances (ctr st') !! T = Some v0 →
       ∀ n, resolve (S n) T st' = Some (Ok v0, st')).
Proof.
  intros Hwf Hf1 Hf2 Hne Ha Heq Hb.
  assert (Hwfb : wf_providers stb).
  { eapply AddWithScope_wf; [|exact Hb]. intros t p. rewrite Heq.
    by apply (AddWithScope_wf _ _ _ _ _ Hwf Ha). }
  assert (HT : providers (ctr stb) !! T = Some {| Type_ := T; Value_ := f2; Scope_ := sc2 |}).
  { by rewrite (AddWithScope_registers _ _ _ _ _ Hf2 Hb), lookup_insert_eq. }
  split; [done|].
  intros st' Hst'. split_and!.
  - intros n t r st'' H ev Hev.
    destruct (grows_events _ _ (resolve_grows _ _ _ _ _ H) _ Hev) as (X & q & args & -> & Hq).
    rewrite Hst' in Hq. simpl. split.
    + intros Hc. pose proof (Hwfb _ _ Hq) as HX. rewrite Hc, Hf1 in HX. by simplify_eq.
    + intros ->. by simplify_eq.
  - intros Hi n args st1 body out v w H1 Hbody Hout Hshape.
    rewrite <-Hst' in HT.
    exact (resolve_constructs_value n T st' _ args st1 body out v w Hi HT H1 Hbody Hout Hshape).
  - intros v0 Hv0 n. by apply resolve_S_cached.
Qed.

(** C6.  No operation of the container removes or overwrites an entry of
    the instance cache: every instance cached before an operation is cached
    with the same value after it, and resolve still returns it.  The
    operation may be the registration of a new provider for that type. *)
Theorem cache_append_only fuel op st st' :
  exec fuel op st = Some st' →
  instances (ctr st) ⊆ instances (ctr st') ∧
  ∀ T v, instances (ctr st) !! T = Some v →
    instances (ctr st') !! T = Some v ∧
    ∀ n, resolve (S n) T st' = Some (Ok v, st').
Proof.
  intros H. pose proof (exec_instances _ _ _ _ H) as Hsub. split; [done|].
  intros T v Hv.
  assert (Hv' : instances (ctr st') !! T = Some v) by by eapply lookup_weaken.
  split; [done|]. intros n. by apply resolve_S_cached.
Qed.

(** ** Invoke and Bind *)

Lemma resolve_args_stops (rec : GoType → M Value) pre :
  ∀ t post st vs st1 e st2,
    resolve_args rec pre st = Some (Ok vs, st1) →
    rec t st1 = Some (Err e, st2) →
    resolve_args rec (pre ++ t :: post) st = Some (Err e, st2).
Proof.
  induction pre as [|t0 pre IH]; intros t post st vs st1 e st2 H1 H2; simpl in *.
  - unfold mret in H1. simplify_eq. by rewrite (mbind_Err _ _ _ _ _ H2).
  - apply mbind_inv in H1 as [(v & sta & Ha & H1)|[(? & _ & ?)|(? & _ & ?)]]; [|done..].
    apply mbind_inv in H1 as [(vs' & stb & Hb & H1)|[(? & _ & ?)|(? & _ & ?)]]; [|done..].
    unfold mret in H1. simplify_eq.
    rewrite (mbind_Ok _ _ _ _ _ Ha). by rewrite (mbind_Err _ _ _ e st2) by eauto.
Qed.

Lemma grows_no_Invoked st st' :
  grows st st' → ∀ ev, ev ∈ new_calls st st' → ∀ f args, ev ≠ Invoked f args.
Proof.
  intros Hg ev Hev f args ->.
  by destruct (grows_events _ _ Hg _ Hev) as (? & ? & ? & ? & _).
Qed.

(** C9.  Invoke resolves the parameter types of [fn] from left to right.
    When the resolution of a parameter fails (those before it having been
    resolved), Invoke returns that error in the state this resolution left:
    the later parameters are not resolved and [fn] is not called.  When all
    parameters resolve, [fn] is called once, on the resolved arguments, and
    Invoke returns no error whatever [fn] returns. *)
Theorem Invoke_resolves_then_calls n fn st :
  (∀ pre t post vs st1 e st2,
     fn_in fn = pre ++ t :: post →
     resolve_args (resolve n) pre st = Some (Ok vs, st1) →
     resolve n t st1 = Some (Err e, st2) →
     Invoke n (AFunc fn) st = Some (Err e, st2) ∧
     ∀ ev, ev ∈ new_calls st st2 → ∀ f args, ev ≠ Invoked f args) ∧
  (∀ args st1 body out w,
     resolve_args (resolve n) (fn_in fn) st = Some (Ok args, st1) →
     fn_body fn = Some body →
     body args (world st1) = (out, w) →
     Invoke n (AFunc fn) st
     = Some (Ok (), {| ctr := ctr st1; world := w; heap := heap st1;
                       calls := calls st1 ++ [Invoked fn args] |}) ∧
     ∀ ev, ev ∈ new_calls st st1 → ∀ f args', ev ≠ Invoked f args').
Proof.
  split.
  - intros pre t post vs st1 e st2 Hin H1 H2.
    pose proof (resolve_args_stops _ _ _ post _ _ _ _ _ H1 H2) as H.
    rewrite <-Hin in H. split.
    + simpl. by rewrite (mbind_Err _ _ _ _ _ H).
    + by apply grows_no_Invoked, (resolve_args_grows _ _ _ _ _ H).
  - intros args st1 body out w H1 Hb Hbody. split.
    + simpl. rewrite (mbind_Ok _ _ _ _ _ H1). unfold mbind, Call. by rewrite Hb, Hbody.
    + by apply grows_no_Invoked, (resolve_args_grows _ _ _ _ _ H1).
Qed.

(** C4 (what the code does).  Given anything but a non-nil pointer to a
    struct variable, Bind panics: it returns no error and changes nothing. *)
Theorem Bind_panics_without_struct_pointer n out st :
  (∀ addr, out ≠ AStructPtr addr) →
  ∃ msg, Bind n out st = Some (Panic msg, st).
Proof.
  intros Hout. destruct out as [| |addr| | |]; simpl; unfold mpanic; eauto.
  by destruct (Hout addr).
Qed.

(** *** Resolution does not look at the heap *)
Definition with_heap (h : gmap nat StructVar) (st : State) : State :=
  {| ctr := ctr st; world := world st; heap := h; calls := calls st |}.

Definition heap_blind {A} (m : M A) : Prop :=
  ∀ h st, m (with_heap h st) = (λ rs, (rs.1, with_heap h rs.2)) <$> m st.

Lemma heap_blind_mbind {A B} (m : M A) (k : A → M B) :
  heap_blind m → (∀ a, heap_blind (k a)) → heap_blind (mbind m k).
Proof.
  intros Hm Hk h st. unfold mbind. rewrite Hm.
  destruct (m st) as [[[a|e|msg] st1]|]; simpl; [apply Hk|done..].
Qed.

Lemma heap_blind_mret {A} (a : A) : heap_blind (mret a).
Proof. done. Qed.

Lemma heap_blind_mfail {A} e : heap_blind (@mfail World A e).
Proof. done. Qed.

Lemma heap_blind_mpanic {A} msg : heap_blind (@mpanic World A msg).
Proof. done. Qed.

Lemma heap_blind_Call ev f args : heap_blind (Call ev f args).
Proof.
  intros h st. unfold Call. destruct (fn_body f) as [body|]; [|done].
  simpl. by destruct (body args (world st)).
Qed.

Lemma heap_blind_check_error f out : heap_blind (check_error f out).
Proof.
  unfold check_error.
  repeat case_match; auto using heap_blind_mret, heap_blind_mfail, heap_blind_mpanic.
Qed.

Lemma heap_blind_construct t p args : heap_blind (construct t p args).
Proof.
  unfold construct.
  apply heap_blind_mbind; [apply heap_blind_Call|intros out].
  apply heap_blind_mbind; [apply heap_blind_check_error|intros _].
  apply heap_blind_mbind; [destruct out; [apply heap_blind_mpanic|apply heap_blind_mret]|].
  intros result. apply heap_blind_mbind; [|intros; apply heap_blind_mret].
  by destruct (Scope_ p).
Qed.

Lemma heap_blind_resolve_args (rec : GoType → M Value) :
  (∀ t, heap_blind (rec t)) → ∀ ins, heap_blind (resolve_args rec ins).
Proof.
  intros Hrec. induction ins as [|t ins IH]; simpl; [apply heap_blind_mret|].
  apply heap_blind_mbind; [done|intros v].
  apply heap_blind_mbind; [done|intros vs]. apply heap_blind_mret.
Qed.

Lemma heap_blind_resolve n : ∀ t, heap_blind (resolve n t).
Proof.
  induction n as [|n IH]; intros t h st; [done|].
  change (instances (ctr (with_heap h st))) with (instances (ctr st)).
  destruct (instances (ctr st) !! t) as [inst|] eqn:Hi.
  { by rewrite !(resolve_S_cached _ _ _ inst). }
  destruct (providers (ctr st) !! t) as [p|] eqn:Hp.
  - rewrite !(resolve_S_provider _ _ _ p) by done.
    apply heap_blind_mbind; [by apply heap_blind_resolve_args|].
    intros args. apply heap_blind_construct.
  - by rewrite !resolve_S_no_provider.
Qed.

Lemma with_heap_with_heap h h' st : with_heap h (with_heap h' st) = with_heap h st.
Proof. done. Qed.

Lemma with_heap_id st : with_heap (heap st) st = st.
Proof. by destruct st. Qed.

(** *** The loop of Bind *)
Lemma Bind_fields_prefix n addr sname pre :
  ∀ done post vs st st1 rest,
    heap st !! addr = Some {| s_type := sname; s_fields := done ++ pre ++ post |} →
    Forall (λ fld, is_exported (f_name fld) = true) pre →
    resolve_args (resolve n) (f_type <$> pre) st = Some (Ok vs, st1) →
    Bind_fields n addr (length done) ((f_type <$> pre) ++ rest) st
    = Bind_fields n addr (length done + length pre) rest
        (with_heap (<[addr := {| s_type := sname;
                                 s_fields := done ++ zip_with bound pre vs ++ post |}]>
                      (heap st)) st1).
Proof.
  induction pre as [|fld pre IH]; intros done post vs st st1 rest Hh Hex H; simpl in H.
  - unfold mret in H. simplify_eq. simpl.
    by rewrite Nat.add_0_r, (insert_id _ _ _ Hh), with_heap_id.
  - apply mbind_inv in H as [(v & sta & Ha & H)|[(? & _ & ?)|(? & _ & ?)]]; [|done..].
    apply mbind_inv in H as [(vs' & stb & Hb & H)|[(? & _ & ?)|(? & _ & ?)]]; [|done..].
    unfold mret in H. simplify_eq.
    change (list_fmap StructField GoType f_type pre) with (f_type <$> pre) in Hb.
    apply Forall_cons in Hex as [Hfld Hex].
    pose proof (frame_heap _ _ (resolve_frame _ _ _ _ _ Ha)) as Hheap.
    set (s1 := {| s_type := sname; s_fields := (done ++ [bound fld v]) ++ pre ++ post |}).
    set (sta' := with_heap (<[addr := s1]> (heap st)) sta).
    assert (Hset : Field_Set addr (length done) v sta = Some (Ok (), sta')).
    { unfold Field_Set. rewrite Hheap, Hh. simpl.
      rewrite (list_lookup_middle done (pre ++ post) fld) by done.
      rewrite Hfld. unfold mret, sta', with_heap, s1, set_field. simpl.
      do 4 f_equal. f_equal.
      rewrite <-(Nat.add_0_r (length done)), alter_app_r. simpl.
      by rewrite <-app_assoc. }
    simpl. rewrite (mbind_Ok _ _ _ _ _ Ha), (mbind_Ok _ _ _ _ _ Hset).
    assert (Hb' : resolve_args (resolve n) (f_type <$> pre) sta'
                  = Some (Ok vs', with_heap (<[addr := s1]> (heap st)) st1)).
    { unfold sta'. rewrite heap_blind_resolve_args by apply heap_blind_resolve.
      by rewrite Hb. }
    assert (Hh' : heap sta' !! addr = Some s1) by apply lookup_insert_eq.
    pose proof (IH (done ++ [bound fld v]) post vs' sta' _ rest Hh' Hex Hb') as HIH.
    rewrite length_app in HIH. simpl in HIH.
    replace (length done + 1) with (S (length done)) in HIH by lia.
    etrans; [exact HIH|]. f_equal; [lia|].
    rewrite with_heap_with_heap.
    by rewrite insert_insert_eq, <-app_assoc.
Qed.

(** C10.  Bind on a pointer to a struct variable resolves the declared
    types of the fields from the first to the last and assigns each value
    as soon as it is resolved.  When the resolution for field K fails (the
    fields before it being exported and resolved), Bind returns that error;
    the fields before K hold the resolved values, field K and the fields
    after it are as they were.  When every field is exported and resolves,
    Bind returns no error and every field holds its resolved value. *)
Theorem Bind_sets_fields_in_order n addr st s :
  heap st !! addr = Some s →
  (∀ pre fK post vs st1 e st2,
     s_fields s = pre ++ fK :: post →
     Forall (λ fld, is_exported (f_name fld) = true) pre →
     resolve_args (resolve n) (f_type <$> pre) st = Some (Ok vs, st1) →
     resolve n (f_type fK) st1 = Some (Err e, st2) →
     Bind n (AStructPtr addr) st
     = Some (Err e,
             with_heap (<[addr := {| s_type := s_type s;
                                     s_fields := zip_with bound pre vs ++ fK :: post |}]>
                          (heap st)) st2)) ∧
  (∀ vs st1,
     Forall (λ fld, is_exported (f_name fld) = true) (s_fields s) →
     resolve_args (resolve n) (f_type <$> s_fields s) st = Some (Ok vs, st1) →
     Bind n (AStructPtr addr) st
     = Some (Ok (),
             with_heap (<[addr := {| s_type := s_type s;
                                     s_fields := zip_with bound (s_fields s) vs |}]>
                          (heap st)) st1)).
Proof.
  intros Hh. destruct s as [sname fields]. cbn [s_type s_fields]. split.
  - intros pre fK post vs st1 e st2 -> Hex H1 H2. unfold Bind. rewrite Hh.
    cbn [s_fields]. rewrite fmap_app, fmap_cons.
    rewrite (Bind_fields_prefix n addr sname pre [] (fK :: post) vs st st1
               (f_type fK :: (f_type <$> post)) Hh Hex H1).
    cbn [Bind_fields app length Nat.add].
    rewrite (mbind_Err _ _ _ e (with_heap
      (<[addr := {| s_type := sname; s_fields := zip_with bound pre vs ++ fK :: post |}]>
         (heap st)) st2)); [done|].
    rewrite heap_blind_resolve. by rewrite H2.
  - intros vs st1 Hex H1. unfold Bind. rewrite Hh. cbn [s_fields].
    pose proof (Bind_fields_prefix n addr sname fields [] [] vs st st1 []) as HB.
    rewrite !app_nil_r in HB. cbn [app length Nat.add] in HB. by rewrite HB.
Qed.

End Properties.

(** ** The scenario of the package's tests

    The world is the counter [singletonConstructorCallTimes]; [Config] is
    registered as a singleton and [DBService], which needs a [Config], as a
    transient. *)
Definition Config : GoType := TStruct "cosmo.Config".
Definition DBService : GoType := TInterface "cosmo.DBService".
Definition Logger : GoType := TStruct "cosmo.Logger".
Definition error : GoType := TInterface "error".

(** func() Config { singletonConstructorCallTimes++; return Config{...} } *)
Definition newConfig : Func nat :=
  {| fn_id := 1; fn_in := []; fn_out := [Config];
     fn_body := Some (λ _ w, ([VData 1], S w)) |}.

(** func(cfg Config) DBService { return &SQLDBService{Config: cfg} } *)
Definition newDBService : Func nat :=
  {| fn_id := 2; fn_in := [Config]; fn_out := [DBService];
     fn_body := Some (λ _ w, ([VData 2], w)) |}.

(** func(db DBService) { db.Get() } *)
Definition useDBService : Func nat :=
  {| fn_id := 3; fn_in := [DBService]; fn_out := [];
     fn_body := Some (λ _ w, ([], w)) |}.

(** func() (Config, error) { calls++; return Config{}, errors.New("boom") } *)
Definition failingConfig : Func nat :=
  {| fn_id := 4; fn_in := []; fn_out := [Config; error];
     fn_body := Some (λ _ w, ([VData 1; VError "boom"], S w)) |}.

(** func(cfg Config, log Logger) DBService *)
Definition loggingDBService : Func nat :=
  {| fn_id := 5; fn_in := [Config; Logger]; fn_out := [DBService];
     fn_body := Some (λ _ w, ([VData 3], w)) |}.

(** A second constructor of Config. *)
Definition otherConfig : Func nat :=
  {| fn_id := 6; fn_in := []; fn_out := [Config];
     fn_body := Some (λ _ w, ([VData 7], w)) |}.

(** func(db DBService) error { return errors.New("ignored") } *)
Definition failingUse : Func nat :=
  {| fn_id := 7; fn_in := [DBService]; fn_out := [error];
     fn_body := Some (λ _ w, ([VError "ignored"], w)) |}.

(** var bnd ToBind, at address 0; a struct with a field that cannot be
    resolved, at address 1. *)
Definition ToBind : StructVar :=
  {| s_type := "cosmo.ToBind";
     s_fields := [ {| f_name := "DB"; f_type := DBService; f_val := VNil |} ] |}.

Definition Partial : StructVar :=
  {| s_type := "cosmo.Partial";
     s_fields := [ {| f_name := "Cfg"; f_type := Config; f_val := VData 0 |};
                   {| f_name := "Log"; f_type := Logger; f_val := VData 0 |};
                   {| f_name := "DB"; f_type := DBService; f_val := VNil |} ] |}.

Definition st_new : State nat :=
  {| ctr := New; world := 0; heap := {[ 0 := ToBind; 1 := Partial ]}; calls := [] |}.

(** The state an operation leaves. *)
Definition after {A} (m : M nat A) (st : State nat) : State nat :=
  match m st with
  | Some (_, st') => st'
  | None => st
  end.

Definition st_registered : State nat :=
  after (Add (AFunc newDBService)) (after (AddSingleton (AFunc newConfig)) st_new).

Definition st_failing : State nat :=
  after (AddSingleton (AFunc failingConfig)) st_new.

Definition st_logging : State nat :=
  after (Add (AFunc loggingDBService)) (after (AddSingleton (AFunc newConfig)) st_new).

Example test_container :
  let st := after (Bind 3 (AStructPtr 0)) (after (Invoke 3 (AFunc useDBService)) st_registered) in
  world st = 1 ∧
  heap st !! 0 = Some {| s_type := "cosmo.ToBind";
                         s_fields := [ {| f_name := "DB"; f_type := DBService;
                                          f_val := VData 2 |} ] |} ∧
  constructions DBService (calls st) = 2.
Proof. vm_compute. done. Qed.

(** ** The theorems at work on the scenario *)

Lemma singleton_resolved_once_witness :
  let st1 := after (resolve 1 Config) st_registered in
  instances (ctr st1) !! Config = Some (VData 1) ∧
  constructions Config (new_calls st_registered st1) = 1 ∧
  ∀ ops st2, run ops st1 = Some st2 →
    ∀ m, resolve (S m) Config st2 = Some (Ok (VData 1), st2).
Proof.
  apply (singleton_resolved_once 1 Config st_registered
           {| Type_ := Config; Value_ := newConfig; Scope_ := ScopeSingleton |});
    vm_compute; reflexivity.
Defined.

(** A Singleton constructor that returns an error is executed by every
    resolve call: twice by two calls. *)
Lemma singleton_failing_constructor_runs_again :
  let st1 := after (resolve 1 Config) st_failing in
  let st2 := after (resolve 1 Config) st1 in
  Scope_ <$> providers (ctr st_failing) !! Config = Some ScopeSingleton ∧
  resolve 1 Config st_failing = Some (Err (VError "boom"), st1) ∧
  resolve 1 Config st1 = Some (Err (VError "boom"), st2) ∧
  constructions Config (new_calls st_failing st2) = 2.
Proof. vm_compute. done. Qed.

Lemma failed_resolve_caches_no_target_witness :
  let st' := after (resolve 2 DBService) st_logging in
  instances (ctr st') !! DBService = None ∧
  instances (ctr st_logging) ⊆ instances (ctr st') ∧
  (∀ X, instances (ctr st_logging) !! X = None → is_Some (instances (ctr st') !! X) →
     ∃ p, providers (ctr st_logging) !! X = Some p ∧ Scope_ p = ScopeSingleton).
Proof.
  apply (failed_resolve_caches_no_target 2 DBService st_logging
           (VError "no provider for type cosmo.Logger")).
  vm_compute. reflexivity.
Defined.

(** A resolve call that fails on the second dependency has cached the
    first: the cache after the call is not the cache before it. *)
Lemma failed_resolve_keeps_cached_dependency :
  let st' := after (resolve 2 DBService) st_logging in
  resolve 2 DBService st_logging
  = Some (Err (VError "no provider for type cosmo.Logger"), st') ∧
  instances (ctr st_logging) !! Config = None ∧
  instances (ctr st') !! Config = Some (VData 1) ∧
  instances (ctr st') ≠ instances (ctr st_logging).
Proof.
  split_and!; [vm_compute; reflexivity..|].
  intros H. apply (f_equal (λ m, m !! Config)) in H. vm_compute in H. done.
Qed.

(** What the theorem says of a Transient resolution, for a state [st], a
    provider [p] of DBService and an outcome [r] in [st1]. *)
Definition transient_facts (st : State nat) (p : Spec nat) (r : result Value)
    (st1 : State nat) : Prop :=
  instances (ctr st1) !! DBService = None ∧
  providers (ctr st1) !! DBService = Some p ∧
  constructions DBService (new_calls st st1) ≤ 1 ∧
  (∀ v, r = Ok v → constructions DBService (new_calls st st1) = 1) ∧
  (∃ n' ra st_a,
     2 = S n' ∧
     resolve_args (resolve n') (fn_in (Value_ p)) st = Some (ra, st_a) ∧
     ((∀ args, ra ≠ Ok args) →
      constructions DBService (new_calls st st1) = 0 ∧ st1 = st_a ∧ ∀ v, r ≠ Ok v)) ∧
  (∀ X, instances (ctr st) !! X = None → is_Some (instances (ctr st1) !! X) →
     ∃ q, providers (ctr st) !! X = Some q ∧ Scope_ q = ScopeSingleton) ∧
  (∀ m v' st2, resolve m DBService st1 = Some (Ok v', st2) →
     constructions DBService (new_calls st1 st2) = 1).

Lemma transient_resolve_reruns_witness :
  transient_facts st_registered
    {| Type_ := DBService; Value_ := newDBService; Scope_ := ScopeTransient |}
    (Ok (VData 2)) (after (resolve 2 DBService) st_registered) ∧
  transient_facts st_logging
    {| Type_ := DBService; Value_ := loggingDBService; Scope_ := ScopeTransient |}
    (Err (VError "no provider for type cosmo.Logger"))
    (after (resolve 2 DBService) st_logging).
Proof.
  split.
  - apply (transient_resolve_reruns 2 DBService st_registered
             {| Type_ := DBService; Value_ := newDBService; Scope_ := ScopeTransient |}
             (Ok (VData 2))); vm_compute; reflexivity.
  - apply (transient_resolve_reruns 2 DBService st_logging
             {| Type_ := DBService; Value_ := loggingDBService; Scope_ := ScopeTransient |}
             (Err (VError "no provider for type cosmo.Logger")));
      vm_compute; reflexivity.
Defined.

(** A resolve call for a Transient type writes the Singleton it depends on
    into the cache; and when a dependency fails, the Transient constructor
    is not executed at all. *)
Lemma transient_resolve_caches_dependency :
  let st1 := after (resolve 2 DBService) st_registered in
  let st2 := after (resolve 2 DBService) st_logging in
  (Scope_ <$> providers (ctr st_registered) !! DBService = Some ScopeTransient ∧
   instances (ctr st_registered) !! DBService = None ∧
   resolve 2 DBService st_registered = Some (Ok (VData 2), st1) ∧
   instances (ctr st_registered) !! Config = None ∧
   instances (ctr st1) !! Config = Some (VData 1)) ∧
  (Scope_ <$> providers (ctr st_logging) !! DBService = Some ScopeTransient ∧
   instances (ctr st_logging) !! DBService = None ∧
   resolve 2 DBService st_logging
   = Some (Err (VError "no provider for type cosmo.Logger"), st2) ∧
   constructions DBService (new_calls st_logging st2) = 0).
Proof. vm_compute. done. Qed.

Lemma Bind_panics_without_struct_pointer_witness :
  ∃ msg, Bind 1 (AValue Config (VData 0)) st_new = Some (Panic msg, st_new).
Proof. apply (Bind_panics_without_struct_pointer 1 (AValue Config (VData 0)) st_new). done. Defined.

(** Bind(Config{}): a struct passed by value. *)
Example Bind_struct_value_panics :
  Bind 1 (AValue Config (VData 0)) st_new = Some (Panic panic_Elem, st_new).
Proof. reflexivity. Qed.

Lemma wf_providers_new : wf_providers st_new.
Proof. intros t p H. vm_compute in H. done. Qed.

Lemma last_registration_wins_witness :
  let sta := after (AddSingleton (AFunc newConfig)) st_new in
  let stb := after (Add (AFunc otherConfig)) sta in
  providers (ctr stb) !! Config
  = Some {| Type_ := Config; Value_ := otherConfig; Scope_ := ScopeTransient |} ∧
  ∀ st', providers (ctr st') = providers (ctr stb) →
    (∀ n t r st'', resolve n t st' = Some (r, st'') →
       ∀ ev, ev ∈ new_calls st' st'' →
         ¬ calls_func newConfig ev ∧ (constructed_for Config ev → calls_func otherConfig ev)) ∧
    (instances (ctr st') !! Config = None →
     ∀ n args st1 body out v w,
       resolve_args (resolve n) (fn_in otherConfig) st' = Some (Ok args, st1) →
       fn_body otherConfig = Some body →
       body args (world st1) = (out, w) →
       out = [v] ∨ (out = [v; VNil] ∧ nilable <$> fn_out otherConfig !! 1 = Some true) →
       resolve (S n) Config st'
       = Some (Ok v,
               {| ctr := {| configurations := configurations (ctr st1);
                            providers := providers (ctr st1);
                            instances := scope_store ScopeTransient Config v
                                           (instances (ctr st1)) |};
                  world := w; heap := heap st1;
                  calls := calls st1 ++ [Constructed Config otherConfig args] |})) ∧
    (∀ v0, instances (ctr st') !! Config = Some v0 →
       ∀ n, resolve (S n) Config st' = Some (Ok v0, st')).
Proof.
  apply (last_registration_wins ScopeSingleton ScopeTransient newConfig otherConfig Config
           st_new (after (AddSingleton (AFunc newConfig)) st_new)
           (after (AddSingleton (AFunc newConfig)) st_new)).
  - exact wf_providers_new.
  - reflexivity.
  - reflexivity.
  - intros H. apply (f_equal fn_id) in H. vm_compute in H. lia.
  - vm_compute. reflexivity.
  - reflexivity.
  - vm_compute. reflexivity.
Defined.

(** A Singleton built by the first constructor outlives the second
    registration: resolve returns the product of [newConfig] although
    [otherConfig], which would return another value, is the provider. *)
Lemma first_constructor_instance_survives :
  let sta := after (AddSingleton (AFunc newConfig)) st_new in
  let stc := after (resolve 1 Config) sta in
  let stb := after (Add (AFunc otherConfig)) stc in
  AddSingleton (AFunc newConfig) st_new = Some (Ok (), sta) ∧
  resolve 1 Config sta = Some (Ok (VData 1), stc) ∧
  Add (AFunc otherConfig) stc = Some (Ok (), stb) ∧
  providers (ctr stb) !! Config
  = Some {| Type_ := Config; Value_ := otherConfig; Scope_ := ScopeTransient |} ∧
  resolve 1 Config stb = Some (Ok (VData 1), stb) ∧
  (∀ ev, ev ∈ calls stb → ¬ calls_func otherConfig ev) ∧
  resolve 1 Config (after (Add (AFunc otherConfig)) sta)
  = Some (Ok (VData 7),
          {| ctr := ctr (after (Add (AFunc otherConfig)) sta); world := 0;
             heap := heap sta;
             calls := [Constructed Config otherConfig []] |}).
Proof.
  split_and!; try (vm_compute; reflexivity).
  intros ev Hev Hc.
  assert (Hcalls : calls (after (Add (AFunc otherConfig))
                            (after (resolve 1 Config)
                               (after (AddSingleton (AFunc newConfig)) st_new)))
                   = [Constructed Config newConfig []]) by (vm_compute; reflexivity).
  rewrite Hcalls in Hev. apply list_elem_of_singleton in Hev as ->.
  simpl in Hc. apply (f_equal fn_id) in Hc. vm_compute in Hc. lia.
Qed.

Lemma cache_append_only_witness :
  let st := after (resolve 1 Config) st_registered in
  let st' := after (Add (AFunc otherConfig)) st in
  instances (ctr st) ⊆ instances (ctr st') ∧
  ∀ T v, instances (ctr st) !! T = Some v →
    instances (ctr st') !! T = Some v ∧
    ∀ n, resolve (S n) T st' = Some (Ok v, st').
Proof.
  apply (cache_append_only 0 (OpAdd (AFunc otherConfig))
           (after (resolve 1 Config) st_registered)).
  vm_compute. reflexivity.
Defined.

Lemma resolve_no_provider_witness :
  resolve 1 Logger st_new
  = Some (Err (VError "no provider for type cosmo.Logger"), st_new).
Proof. apply (resolve_no_provider 0 Logger st_new); vm_compute; reflexivity. Defined.

Lemma constructor_error_discards_output_witness :
  ∃ st', resolve 1 Config st_failing = Some (Err (VError "boom"), st') ∧
         instances (ctr st') = instances (ctr st_failing) ∧
         instances (ctr st') !! Config = None.
Proof.
  apply (constructor_error_discards_output 0 Config st_failing
           {| Type_ := Config; Value_ := failingConfig; Scope_ := ScopeSingleton |}
           [] st_failing (λ _ w, ([VData 1; VError "boom"], S w)) (VData 1) "boom" 1);
    vm_compute; reflexivity.
Defined.

Lemma Invoke_resolves_then_calls_witness :
  (let st2 := after (resolve 2 DBService) st_logging in
   Invoke 2 (AFunc useDBService) st_logging
   = Some (Err (VError "no provider for type cosmo.Logger"), st2) ∧
   ∀ ev, ev ∈ new_calls st_logging st2 → ∀ f args, ev ≠ Invoked f args) ∧
  (let st1 := after (resolve 2 DBService) st_registered in
   Invoke 2 (AFunc failingUse) st_registered
   = Some (Ok (), {| ctr := ctr st1; world := world st1; heap := heap st1;
                     calls := calls st1 ++ [Invoked failingUse [VData 2]] |}) ∧
   ∀ ev, ev ∈ new_calls st_registered st1 → ∀ f args', ev ≠ Invoked f args').
Proof.
  split.
  - apply (proj1 (Invoke_resolves_then_calls 2 useDBService st_logging)
             [] DBService [] [] st_logging (VError "no provider for type cosmo.Logger"));
      vm_compute; reflexivity.
  - apply (proj2 (Invoke_resolves_then_calls 2 failingUse st_registered)
             [VData 2] (after (resolve 2 DBService) st_registered)
             (λ _ w, ([VError "ignored"], w)) [VError "ignored"]);
      vm_compute; reflexivity.
Defined.

Lemma Bind_sets_fields_in_order_witness :
  (let st2 := after (resolve 1 Logger) (after (resolve 1 Config) st_registered) in
   Bind 2 (AStructPtr 1) st_registered
   = Some (Err (VError "no provider for type cosmo.Logger"),
           with_heap
             (<[1 := {| s_type := "cosmo.Partial";
                        s_fields :=
                          [ {| f_name := "Cfg"; f_type := Config; f_val := VData 1 |};
                            {| f_name := "Log"; f_type := Logger; f_val := VData 0 |};
                            {| f_name := "DB"; f_type := DBService; f_val := VNil |} ] |}]>
                (heap st_registered)) st2)) ∧
  (let st1 := after (resolve 2 DBService) st_registered in
   Bind 2 (AStructPtr 0) st_registered
   = Some (Ok (),
           with_heap
             (<[0 := {| s_type := "cosmo.ToBind";
                        s_fields :=
                          [ {| f_name := "DB"; f_type := DBService; f_val := VData 2 |} ] |}]>
                (heap st_registered)) st1)).
Proof.
  split.
  - apply (proj1 (Bind_sets_fields_in_order 2 1 st_registered Partial eq_refl)
             [ {| f_name := "Cfg"; f_type := Config; f_val := VData 0 |} ]
             {| f_name := "Log"; f_type := Logger; f_val := VData 0 |}
             [ {| f_name := "DB"; f_type := DBService; f_val := VNil |} ]
             [VData 1] (after (resolve 1 Config) st_registered)).
    + reflexivity.
    + repeat constructor.
    + vm_compute. reflexivity.
    + vm_compute. reflexivity.
  - apply (proj2 (Bind_sets_fields_in_order 2 0 st_registered ToBind eq_refl)
             [VData 2] (after (resolve 2 DBService) st_registered)).
    + repeat constructor.
    + vm_compute. reflexivity.
Defined.

(** * Further properties of the container

    ** Registration: [spec], [AddWithScope], [Add], [AddSingleton],
    [Configure] *)
Section Registration.
Context {World : Type}.
#[local] Abbreviation Func := (Func World).
#[local] Abbreviation Any := (Any World).
#[local] Abbreviation Spec := (Spec World).
#[local] Abbreviation State := (State World).
#[local] Abbreviation M := (M World).

Implicit Types (st : State) (t T : GoType) (p : Spec) (f : Func) (c : Any).

(** The state in which [f] is the provider of [T]: c.providers[t] = Spec{...} *)
Definition registers (sc : Scope) (T : GoType) (f : Func) (st : State) : State :=
  with_ctr {| configurations := configurations (ctr st);
              providers := <[T := {| Type_ := T; Value_ := f; Scope_ := sc |}]>
                             (providers (ctr st));
              instances := instances (ctr st) |} st.

(** configurations[key] = t *)
Definition configures (key : string) (T : GoType) (st : State) : State :=
  with_ctr {| configurations := <[key := T]> (configurations (ctr st));
              providers := providers (ctr st);
              instances := instances (ctr st) |} st.

Lemma spec_AFunc f :
  spec (AFunc f) =
    match fn_out f with
    | [T] | [T; _] => Ok (T, f)
    | _ => Err (errors_New "constructor must return T or (T, error)")
    end.
Proof. unfold spec. by destruct (fn_out f) as [|? [|? [|? ?]]]. Qed.

Lemma spec_Ok_iff c T f :
  spec c = Ok (T, f) ↔
  c = AFunc f ∧ head (fn_out f) = Some T ∧ length (fn_out f) ≤ 2.
Proof.
  split.
  - destruct c as [|f'| | | |]; try done. rewrite spec_AFunc.
    destruct (fn_out f') as [|? [|? [|? ?]]] eqn:E; intros; simplify_eq;
      rewrite E; simpl; split_and!; (done || lia).
  - intros (-> & Hh & Hl). rewrite spec_AFunc.
    destruct (fn_out f) as [|? [|? [|? ?]]]; simpl in *; simplify_eq; (done || lia).
Qed.

Lemma AddWithScope_Ok sc f T st :
  spec (AFunc f) = Ok (T, f) →
  AddWithScope sc (AFunc f) st = Some (Ok (), registers sc T f st).
Proof. unfold AddWithScope, mbind, mlift. by intros ->. Qed.

Lemma Configure_Ok key f T st :
  spec (AFunc f) = Ok (T, f) →
  Configure key (AFunc f) st
  = Some (Ok (), configures key T (registers ScopeSingleton T f st)).
Proof.
  intros Hs. unfold Configure, AddSingleton, mbind at 1, mlift. rewrite Hs.
  unfold mbind. by rewrite (AddWithScope_Ok _ _ _ _ Hs).
Qed.

Lemma registration_not_Ok {A} (r : result (GoType * Func)) (k : GoType * Func → M A) st :
  (∀ tv, r ≠ Ok tv) →
  mbind (mlift r) k st
  = Some (match r with Ok _ => Panic EmptyString | Err e => Err e | Panic msg => Panic msg end, st).
Proof. unfold mbind, mlift. destruct r as [tv| |]; [by intros H; destruct (H tv)|done..]. Qed.

(** A registration succeeds exactly for a function that declares one or
    two outputs; it then makes this function the provider of its first
    output type, in the given scope, and changes nothing else. *)
Theorem registration_succeeds_iff sc c st st' :
  AddWithScope sc c st = Some (Ok (), st') ↔
  ∃ f T, c = AFunc f ∧ head (fn_out f) = Some T ∧ length (fn_out f) ≤ 2 ∧
         st' = registers sc T f st.
Proof.
  split.
  - intros [(T & f & Hs & _ & ->)|(_ & Hr & _)]%AddWithScope_inv; [|by destruct (Hr ())].
    apply spec_Ok_iff in Hs as (-> & ? & ?). by exists f, T.
  - intros (f & T & -> & Hh & Hl & ->). apply AddWithScope_Ok. by apply spec_Ok_iff.
Qed.

(** Whatever is not a function, and any function that declares no output
    or more than two, is rejected by every registering operation with the
    error of [spec]; nothing is registered and no key is configured. *)
Theorem invalid_constructor_rejected c st :
  c ≠ ANil →
  (∀ f, c = AFunc f → length (fn_out f) = 0 ∨ 2 < length (fn_out f)) →
  let e := VError (match c with
                   | AFunc _ => "constructor must return T or (T, error)"
                   | _ => "constructor must be a function"
                   end) in
  (∀ sc, AddWithScope sc c st = Some (Err e, st)) ∧
  Add c st = Some (Err e, st) ∧
  AddSingleton c st = Some (Err e, st) ∧
  (∀ key, Configure key c st = Some (Err e, st)).
Proof.
  intros Hnil Hf e.
  assert (Hs : spec c = Err e).
  { destruct c as [|f| | | |]; try done. rewrite spec_AFunc.
    destruct (Hf f eq_refl) as [Hl|Hl]; destruct (fn_out f) as [|? [|? [|? ?]]];
      simpl in Hl; (done || lia). }
  assert (Hadd : ∀ sc, AddWithScope sc c st = Some (Err e, st)).
  { intros sc. unfold AddWithScope. rewrite registration_not_Ok; by rewrite Hs. }
  split_and!; [done|apply Hadd|apply Hadd|].
  intros key. unfold Configure. rewrite registration_not_Ok; by rewrite Hs.
Qed.

(** The nil interface is not rejected with an error: [spec] asks the zero
    Value for its type, which panics, in every registering operation. *)
Theorem nil_constructor_panics (st : State) :
  (∀ sc, AddWithScope sc ANil st = Some (Panic panic_zero_Value, st)) ∧
  Add ANil st = Some (Panic panic_zero_Value, st) ∧
  AddSingleton ANil st = Some (Panic panic_zero_Value, st) ∧
  (∀ key, Configure key ANil st = Some (Panic panic_zero_Value, st)).
Proof. done. Qed.

End Registration.

(** ** What the operations keep *)
Section Invariants.
Context {World : Type}.
#[local] Abbreviation Func := (Func World).
#[local] Abbreviation Any := (Any World).
#[local] Abbreviation Spec := (Spec World).
#[local] Abbreviation State := (State World).
#[local] Abbreviation M := (M World).
#[local] Abbreviation Op := (@Op World).

Implicit Types (st : State) (t T X : GoType) (p : Spec) (f : Func) (c : Any) (op : Op).

(** A container as [New] returns it, in a program with captured
    variables [w] and struct variables [h]. *)
Definition initial (w : World) (h : gmap nat StructVar) : State :=
  {| ctr := New; world := w; heap := h; calls := [] |}.

(** The operations that write the registry. *)
Definition is_registration (op : Op) : bool :=
  match op with
  | OpAdd _ | OpAddSingleton _ | OpAddWithScope _ _ | OpConfigure _ _ => true
  | OpResolve _ | OpInvoke _ | OpBind _ | OpGet _ => false
  end.

(** [ctr_grows st st']: the container after a resolving operation. *)
Record ctr_grows (st st' : State) : Prop := {
  cg_providers : providers (ctr st') = providers (ctr st);
  cg_configurations : configurations (ctr st') = configurations (ctr st);
  cg_instances : instances (ctr st) ⊆ instances (ctr st');
  cg_singleton : ∀ X,
    instances (ctr st) !! X = None → is_Some (instances (ctr st') !! X) →
    ∃ p, providers (ctr st) !! X = Some p ∧ Scope_ p = ScopeSingleton
}.

Lemma ctr_grows_refl st : ctr_grows st st.
Proof. split; try done. intros X Hn [v Hv]. congruence. Qed.

Lemma ctr_grows_trans st st1 st2 : ctr_grows st st1 → ctr_grows st1 st2 → ctr_grows st st2.
Proof.
  intros H1 H2. split.
  - by rewrite (cg_providers _ _ H2), (cg_providers _ _ H1).
  - by rewrite (cg_configurations _ _ H2), (cg_configurations _ _ H1).
  - etrans; [apply (cg_instances _ _ H1)|apply (cg_instances _ _ H2)].
  - intros X Hn Hs. destruct (instances (ctr st1) !! X) as [v|] eqn:E.
    + apply (cg_singleton _ _ H1); [done|]. by rewrite E.
    + rewrite <-(cg_providers _ _ H1). by apply (cg_singleton _ _ H2).
Qed.

Lemma ctr_grows_same_ctr st st' : ctr st' = ctr st → ctr_grows st st'.
Proof. intros E. split; rewrite E; try done. intros X Hn [v Hv]. congruence. Qed.

Lemma grows_ctr_grows st st' : grows st st' → ctr_grows st st'.
Proof.
  intros H. split; [apply H|apply H|apply H|apply H].
Qed.

Lemma Call_ctr ev f args st r st' : Call ev f args st = Some (r, st') → ctr st' = ctr st.
Proof. by intros [(? & ? & ? & _ & _ & _ & ->)|(_ & _ & ->)]%Call_inv. Qed.

Lemma Invoke_ctr_grows n c st r st' : Invoke n c st = Some (r, st') → ctr_grows st st'.
Proof.
  destruct c as [|v| | | |]; simpl;
    try (unfold mfail; intros; simplify_eq; apply ctr_grows_refl).
  intros H.
  apply mbind_inv in H as [(args & st1 & H1 & H)|[(e & H1 & ->)|(msg & H1 & ->)]];
    pose proof (grows_ctr_grows _ _ (resolve_args_grows _ _ _ _ _ H1)) as Hg; [|done..].
  eapply ctr_grows_trans; [done|]. apply ctr_grows_same_ctr.
  apply mbind_inv in H as [(out & st2 & H2 & H)|[(e & H2 & ->)|(msg & H2 & ->)]];
    apply Call_ctr in H2; [|done..].
  unfold mret in H. by simplify_eq.
Qed.

Lemma Bind_fields_ctr_grows n addr :
  ∀ types i st r st', Bind_fields n addr i types st = Some (r, st') → ctr_grows st st'.
Proof.
  induction types as [|t types IH]; intros i st r st' H; simpl in H.
  { unfold mret in H. simplify_eq. apply ctr_grows_refl. }
  apply mbind_inv in H as [(val & st1 & H1 & H)|[(e & H1 & ->)|(msg & H1 & ->)]];
    pose proof (grows_ctr_grows _ _ (resolve_grows _ _ _ _ _ H1)) as Hg; [|done..].
  eapply ctr_grows_trans; [done|].
  apply mbind_inv in H as [([] & st2 & H2 & H)|[(e & H2 & ->)|(msg & H2 & ->)]];
    apply Field_Set_inv in H2 as (Hc & _); [|by apply ctr_grows_same_ctr..].
  eapply ctr_grows_trans; [by apply ctr_grows_same_ctr|eauto].
Qed.

Lemma Bind_ctr_grows n c st r st' : Bind n c st = Some (r, st') → ctr_grows st st'.
Proof.
  destruct c as [| |addr| | |]; simpl;
    try (unfold mpanic; intros; simplify_eq; apply ctr_grows_refl).
  destruct (heap st !! addr); [apply Bind_fields_ctr_grows|].
  unfold mpanic; intros; simplify_eq; apply ctr_grows_refl.
Qed.

Lemma Get_ctr_grows n key st r st' : Get n key st = Some (r, st') → ctr_grows st st'.
Proof.
  unfold Get. destruct (configurations (ctr st) !! key) as [t|];
    [|unfold mret; intros; simplify_eq; apply ctr_grows_refl].
  destruct (resolve n t st) as [[[v|e|msg] st1]|] eqn:E; [..|done];
    unfold mret, mpanic; intros; simplify_eq;
    apply grows_ctr_grows, (resolve_grows _ _ _ _ _ E).
Qed.

Lemma exec_ctr_grows n op st st' :
  is_registration op = false → exec n op st = Some st' → ctr_grows st st'.
Proof.
  unfold state_of. destruct op; simpl; try done; intros _;
    intros ([r s] & H & ?)%fmap_Some; simplify_eq; simpl.
  - apply grows_ctr_grows, (resolve_grows _ _ _ _ _ H).
  - by eapply Invoke_ctr_grows.
  - by eapply Bind_ctr_grows.
  - by eapply Get_ctr_grows.
Qed.

Lemma Configure_inv key c st r st' :
  Configure key c st = Some (r, st') →
  (∃ f T, spec c = Ok (T, f) ∧ r = Ok () ∧
          st' = configures key T (registers ScopeSingleton T f st)) ∨
  ((∀ tv, spec c ≠ Ok tv) ∧ (∀ u, r ≠ Ok u) ∧ st' = st).
Proof.
  destruct (spec c) as [[T f]|e|msg] eqn:Hs.
  - pose proof Hs as (-> & _)%spec_Ok_iff. rewrite (Configure_Ok _ _ _ _ Hs).
    intros; simplify_eq. left. by exists f, T.
  - unfold Configure. rewrite registration_not_Ok, Hs by by rewrite Hs.
    intros; simplify_eq. by right.
  - unfold Configure. rewrite registration_not_Ok, Hs by by rewrite Hs.
    intros; simplify_eq. by right.
Qed.

(** The registering operations, seen as changes of the state. *)
Lemma exec_registration n op st st' :
  is_registration op = true → exec n op st = Some st' →
  st' = st ∨
  ∃ sc f T, spec (AFunc f) = Ok (T, f) ∧
    (st' = registers sc T f st ∨
     ∃ key, st' = configures key T (registers sc T f st)).
Proof.
  unfold state_of. destruct op as [c|c|sc c|key c| | | |]; simpl; try done; intros _;
    unfold Add, AddSingleton; intros ([r s] & H & ?)%fmap_Some; simplify_eq; simpl.
  1-3: apply AddWithScope_inv in H as [(T & f & Hs & _ & ->)|(_ & _ & ->)]; [|by left];
       pose proof Hs as (-> & _)%spec_Ok_iff; right; eexists _, f, T; split; [done|by left].
  apply Configure_inv in H as [(f & T & Hs & _ & ->)|(_ & _ & ->)]; [|by left].
  pose proof Hs as (-> & _)%spec_Ok_iff. right. exists ScopeSingleton, f, T. eauto.
Qed.

(** Resolving operations never write the registry or the configured keys:
    after [resolve], [Invoke], [Bind] or [Get] both maps are what they
    were, however the operation ended. *)
Theorem resolution_keeps_registry fuel op st st' :
  is_registration op = false →
  exec fuel op st = Some st' →
  providers (ctr st') = providers (ctr st) ∧
  configurations (ctr st') = configurations (ctr st).
Proof. intros Hop H. split; apply (exec_ctr_grows _ _ _ _ Hop H). Qed.

(** Registration is lazy: [Add], [AddSingleton], [AddWithScope] and
    [Configure] call no function and create no instance; the captured
    variables, the call log, the heap and the instance cache are what they
    were. *)
Theorem registration_is_lazy fuel op st st' :
  is_registration op = true →
  exec fuel op st = Some st' →
  calls st' = calls st ∧ world st' = world st ∧ heap st' = heap st ∧
  instances (ctr st') = instances (ctr st).
Proof.
  intros Hop H.
  by destruct (exec_registration _ _ _ _ Hop H)
    as [->|(sc & f & T & _ & [->|(key & ->)])].
Qed.

(** What holds of a container at any time. *)
Record container_ok (st : State) : Prop := {
  ok_registry : ∀ t p, providers (ctr st) !! t = Some p →
    Type_ p = t ∧ head (fn_out (Value_ p)) = Some t ∧ length (fn_out (Value_ p)) ≤ 2;
  ok_configured : ∀ key t, configurations (ctr st) !! key = Some t →
    is_Some (providers (ctr st) !! t);
  ok_cached : ∀ t v, instances (ctr st) !! t = Some v →
    is_Some (providers (ctr st) !! t)
}.

Lemma container_ok_initial w h : container_ok (initial w h).
Proof. split; simpl; intros ? ?; by rewrite lookup_empty. Qed.

Lemma container_ok_registers sc f T st :
  spec (AFunc f) = Ok (T, f) → container_ok st → container_ok (registers sc T f st).
Proof.
  intros (_ & Hh & Hl)%spec_Ok_iff Hok. split; simpl.
  - intros t p. destruct (decide (T = t)) as [<-|Hne].
    + rewrite lookup_insert_eq. by intros; simplify_eq.
    + rewrite lookup_insert_ne by done. apply Hok.
  - intros key t Hk. destruct (decide (T = t)) as [<-|Hne].
    + by rewrite lookup_insert_eq.
    + rewrite lookup_insert_ne by done. by eapply ok_configured.
  - intros t v Hv. destruct (decide (T = t)) as [<-|Hne].
    + by rewrite lookup_insert_eq.
    + rewrite lookup_insert_ne by done. by eapply ok_cached.
Qed.

Lemma container_ok_configures key T st :
  is_Some (providers (ctr st) !! T) → container_ok st → container_ok (configures key T st).
Proof.
  intros HT Hok. split; simpl; [apply Hok| |apply Hok].
  intros key' t. destruct (decide (key = key')) as [<-|Hne].
  - rewrite lookup_insert_eq. by intros; simplify_eq.
  - rewrite lookup_insert_ne by done. apply Hok.
Qed.

Lemma container_ok_grows st st' : ctr_grows st st' → container_ok st → container_ok st'.
Proof.
  intros Hg Hok. split.
  - rewrite (cg_providers _ _ Hg). apply Hok.
  - rewrite (cg_providers _ _ Hg), (cg_configurations _ _ Hg). apply Hok.
  - rewrite (cg_providers _ _ Hg). intros t v Hv.
    destruct (instances (ctr st) !! t) as [v0|] eqn:E; [by eapply ok_cached|].
    destruct (cg_singleton _ _ Hg t E) as (p & -> & _); [by rewrite Hv|done].
Qed.

Lemma exec_container_ok n op st st' :
  exec n op st = Some st' → container_ok st → container_ok st'.
Proof.
  intros H Hok. destruct (is_registration op) eqn:Hop.
  - destruct (exec_registration _ _ _ _ Hop H)
      as [->|(sc & f & T & Hs & [->|(key & ->)])]; [done|..].
    + by apply container_ok_registers.
    + apply container_ok_configures; [|by apply container_ok_registers].
      simpl. by rewrite lookup_insert_eq.
  - eapply container_ok_grows; [|done]. by eapply exec_ctr_grows.
Qed.

(** In every state a program can reach from a new container: each
    provider is registered under the first output type of its function,
    which declares one or two outputs; each configured key names a type
    that has a provider; each cached instance belongs to a type that has a
    provider. *)
Theorem reachable_container_ok ops w h st :
  run ops (initial w h) = Some st → container_ok st.
Proof.
  generalize (container_ok_initial w h). generalize (initial w h).
  induction ops as [|[n op] ops IH]; intros st0 Hok H; simpl in H; [by simplify_eq|].
  destruct (exec n op st0) as [st1|] eqn:E; [|done].
  eapply IH; [|done]. by eapply exec_container_ok.
Qed.

End Invariants.

(** ** Named configurations: [Configure] and [Get] *)
Section Configuration.
Context {World : Type}.
#[local] Abbreviation Func := (Func World).
#[local] Abbreviation Any := (Any World).
#[local] Abbreviation Spec := (Spec World).
#[local] Abbreviation State := (State World).
#[local] Abbreviation M := (M World).

Implicit Types (st : State) (t T X : GoType) (p : Spec) (f : Func) (c : Any).

Lemma Get_configured n key T st :
  configurations (ctr st) !! key = Some T →
  Get n key st =
    match resolve n T st with
    | None => None
    | Some (Ok v, st1) => Some (Ok (Some v), st1)
    | Some (Err _, st1) => Some (Ok None, st1)
    | Some (Panic msg, st1) => Some (Panic msg, st1)
    end.
Proof. unfold Get. by intros ->. Qed.

(** [Get] never returns an error.  For a key that was never configured it
    returns nil and nothing happens; when the resolution of the configured
    type fails it returns nil: the error is dropped while the state that
    resolution left stays.  It returns [v.Interface()] of an instance [v]
    exactly when the key is configured and resolve returned [v]. *)
Theorem Get_drops_errors n key st :
  (configurations (ctr st) !! key = None → Get n key st = Some (Ok None, st)) ∧
  (∀ T e st', configurations (ctr st) !! key = Some T →
     resolve n T st = Some (Err e, st') → Get n key st = Some (Ok None, st')) ∧
  (∀ v st', Get n key st = Some (Ok (Some v), st') ↔
     ∃ T, configurations (ctr st) !! key = Some T ∧ resolve n T st = Some (Ok v, st')) ∧
  (∀ r st', Get n key st = Some (r, st') → ∀ e, r ≠ Err e).
Proof.
  destruct (configurations (ctr st) !! key) as [T|] eqn:Hk.
  - rewrite (Get_configured _ _ _ _ Hk). split_and!.
    + done.
    + intros T' e st' [= <-] H. by rewrite H.
    + intros v st'. split.
      * destruct (resolve n T st) as [[[v'|e|msg] st1]|] eqn:E; intros; simplify_eq. eauto.
      * intros (T' & [= <-] & H). by rewrite H.
    + intros r st' H e ->.
      destruct (resolve n T st) as [[[v'|e'|msg] st1]|]; by simplify_eq.
  - unfold Get. rewrite Hk. unfold mret. split_and!; try done.
    + intros v st'. split; [done|]. by intros (T' & ? & _).
    + intros r st' H e ->. by simplify_eq.
Qed.

(** Configure then Get.  When a valid constructor of a type [T] not yet
    instantiated is configured under [key] and [T] resolves to [v], Get
    returns [v]; [v] is then the instance of [T], and as long as [key]
    names [T] every later Get of [key] returns this same [v] without
    changing anything. *)
Theorem Configure_then_Get key f T st n v st3 :
  head (fn_out f) = Some T → length (fn_out f) ≤ 2 →
  instances (ctr st) !! T = None →
  let st1 := configures key T (registers ScopeSingleton T f st) in
  resolve n T st1 = Some (Ok v, st3) →
  Configure key (AFunc f) st = Some (Ok (), st1) ∧
  Get n key st1 = Some (Ok (Some v), st3) ∧
  instances (ctr st3) !! T = Some v ∧
  ∀ ops st4, run ops st3 = Some st4 →
    configurations (ctr st4) !! key = Some T →
    ∀ m, Get (S m) key st4 = Some (Ok (Some v), st4).
Proof.
  intros Hh Hl Hi st1 H.
  assert (Hs : spec (AFunc f) = Ok (T, f)) by by apply spec_Ok_iff.
  assert (Hk : configurations (ctr st1) !! key = Some T) by apply lookup_insert_eq.
  assert (Hp : providers (ctr st1) !! T
               = Some {| Type_ := T; Value_ := f; Scope_ := ScopeSingleton |})
    by apply lookup_insert_eq.
  assert (Hi1 : instances (ctr st1) !! T = None) by exact Hi.
  assert (Hv : instances (ctr st3) !! T = Some v).
  { by rewrite (resolve_uncached_result _ _ _ _ _ _ Hi1 Hp H). }
  split_and!; [by apply Configure_Ok|by rewrite (Get_configured _ _ _ _ Hk), H|done|].
  intros ops st4 Hrun Hk4 m. rewrite (Get_configured _ _ _ _ Hk4).
  rewrite (resolve_S_cached m T st4 v); [done|].
  eapply lookup_weaken; [exact Hv|by eapply run_instances].
Qed.

(** Configuring a constructor for a type that already has an instance does
    not replace the instance: Get returns the old one and the configured
    constructor is never called. *)
Theorem Configure_keeps_instance key f T st v0 :
  head (fn_out f) = Some T → length (fn_out f) ≤ 2 →
  instances (ctr st) !! T = Some v0 →
  ∃ st1, Configure key (AFunc f) st = Some (Ok (), st1) ∧
         providers (ctr st1) !! T
         = Some {| Type_ := T; Value_ := f; Scope_ := ScopeSingleton |} ∧
         ∀ m, Get (S m) key st1 = Some (Ok (Some v0), st1).
Proof.
  intros Hh Hl Hi.
  assert (Hs : spec (AFunc f) = Ok (T, f)) by by apply spec_Ok_iff.
  eexists. split_and!; [by apply Configure_Ok|apply lookup_insert_eq|].
  intros m. rewrite (Get_configured _ _ T) by apply lookup_insert_eq.
  by rewrite (resolve_S_cached m T _ v0).
Qed.

(** Two keys configured with constructors [f1], then [f2], of the same
    type share one instance, and it is built by [f2]: the first Get of
    either key returns what [f2] produces, [f1] is not called. *)
Theorem configured_keys_share_instance key1 key2 f1 f2 T st n v st3 :
  head (fn_out f1) = Some T → length (fn_out f1) ≤ 2 →
  head (fn_out f2) = Some T → length (fn_out f2) ≤ 2 →
  instances (ctr st) !! T = None →
  let st1 := configures key1 T (registers ScopeSingleton T f1 st) in
  let st2 := configures key2 T (registers ScopeSingleton T f2 st1) in
  resolve n T st2 = Some (Ok v, st3) →
  Configure key1 (AFunc f1) st = Some (Ok (), st1) ∧
  Configure key2 (AFunc f2) st1 = Some (Ok (), st2) ∧
  Get n key1 st2 = Some (Ok (Some v), st3) ∧
  (∀ m, Get (S m) key2 st3 = Some (Ok (Some v), st3)) ∧
  (∀ ev, ev ∈ new_calls st2 st3 → constructed_for T ev → calls_func f2 ev).
Proof.
  intros Hh1 Hl1 Hh2 Hl2 Hi st1 st2 H.
  assert (Hs1 : spec (AFunc f1) = Ok (T, f1)) by by apply spec_Ok_iff.
  assert (Hs2 : spec (AFunc f2) = Ok (T, f2)) by by apply spec_Ok_iff.
  assert (Hk2 : configurations (ctr st2) !! key2 = Some T) by apply lookup_insert_eq.
  assert (Hk1 : configurations (ctr st2) !! key1 = Some T).
  { simpl. destruct (decide (key2 = key1)) as [->|Hne]; [apply lookup_insert_eq|].
    rewrite lookup_insert_ne by done. apply lookup_insert_eq. }
  assert (Hp : providers (ctr st2) !! T
               = Some {| Type_ := T; Value_ := f2; Scope_ := ScopeSingleton |})
    by apply lookup_insert_eq.
  pose proof (resolve_grows _ _ _ _ _ H) as Hg.
  assert (Hi2 : instances (ctr st2) !! T = None) by exact Hi.
  assert (Hv : instances (ctr st3) !! T = Some v).
  { by rewrite (resolve_uncached_result _ _ _ _ _ _ Hi2 Hp H). }
  split_and!; [by apply Configure_Ok|by apply Configure_Ok| | |].
  - by rewrite (Get_configured _ _ _ _ Hk1), H.
  - intros m. rewrite (Get_configured _ _ T).
    + by rewrite (resolve_S_cached m T st3 v).
    + by rewrite (frame_configurations _ _ (grows_frame _ _ Hg)).
  - intros ev Hev Hc.
    destruct (grows_events _ _ Hg _ Hev) as (X & q & args & -> & Hq).
    simpl in Hc. subst X. rewrite Hp in Hq. by simplify_eq.
Qed.

End Configuration.

(** ** The recursion of [resolve]: when it ends and when it does not *)
Section Recursion.
Context {World : Type}.
#[local] Abbreviation Func := (Func World).
#[local] Abbreviation Spec := (Spec World).
#[local] Abbreviation State := (State World).
#[local] Abbreviation M := (M World).

Implicit Types (st : State) (t T X d : GoType) (p : Spec) (f : Func).

(** [rank] measures the registry: every parameter of a provider ranks
    below the type the provider produces.  Such a measure exists exactly
    when the dependencies between registered types have no cycle. *)
Definition ranked (rank : GoType → nat) (st : State) : Prop :=
  ∀ t p d, providers (ctr st) !! t = Some p → d ∈ fn_in (Value_ p) → rank d < rank t.

Lemma mbind_total {A B} (m : M A) (k : A → M B) st :
  is_Some (m st) → (∀ a st1, is_Some (k a st1)) → is_Some (mbind m k st).
Proof.
  intros [[[a|e|msg] st1] Hm] Hk; unfold mbind; rewrite Hm; [apply Hk|done..].
Qed.

Lemma Call_total ev f args st : is_Some (Call ev f args st).
Proof.
  unfold Call. destruct (fn_body f) as [body|]; [|done].
  by destruct (body args (world st)).
Qed.

Lemma check_error_total f out st : is_Some (check_error f out st).
Proof. unfold check_error. by repeat case_match. Qed.

Lemma construct_total t p args st : is_Some (construct t p args st).
Proof.
  unfold construct.
  apply mbind_total; [apply Call_total|intros out st1].
  apply mbind_total; [apply check_error_total|intros _ st2].
  apply mbind_total; [by destruct out|intros result st3].
  apply mbind_total; [by destruct (Scope_ p)|done].
Qed.

Lemma resolve_args_total (rank : GoType → nat) n :
  (∀ t st, ranked rank st → rank t < n → is_Some (resolve n t st)) →
  ∀ ins st, ranked rank st → (∀ d, d ∈ ins → rank d < n) →
    is_Some (resolve_args (resolve n) ins st).
Proof.
  intros Hrec. induction ins as [|d ins IH]; intros st Hrk Hins; simpl; [done|].
  destruct (Hrec d st Hrk) as [[r st1] H1]; [apply Hins; by left|].
  unfold mbind at 1. rewrite H1. destruct r as [v|e|msg]; [|done..].
  apply mbind_total; [|done].
  apply IH.
  - intros t p d' Hp. rewrite (frame_providers _ _ (resolve_frame _ _ _ _ _ H1)) in Hp.
    by eapply Hrk.
  - intros d' Hd'. apply Hins. by right.
Qed.

(** When the registry has no dependency cycle, [resolve] returns (a value,
    an error or a panic), and its recursion is no deeper than the rank of
    the requested type. *)
Theorem acyclic_resolve_returns (rank : GoType → nat) n :
  ∀ t st, ranked rank st → rank t < n → is_Some (resolve n t st).
Proof.
  induction n as [|n IH]; intros t st Hrk Hn; [lia|].
  destruct (instances (ctr st) !! t) as [inst|] eqn:Hi.
  { by rewrite (resolve_S_cached _ _ _ _ Hi). }
  destruct (providers (ctr st) !! t) as [p|] eqn:Hp.
  2:{ by rewrite (resolve_S_no_provider _ _ _ Hi Hp). }
  rewrite (resolve_S_provider _ _ _ _ Hi Hp).
  apply mbind_total; [|intros; apply construct_total].
  apply (resolve_args_total rank n IH _ _ Hrk).
  intros d Hd. pose proof (Hrk _ _ _ Hp Hd). lia.
Qed.

(** A set of uncached types each of which has a provider with a parameter
    in the set (a dependency cycle, or types that depend on one) can never
    be instantiated: a resolve call for a member returns no value, and
    whatever is resolved, the constructors of the members are never called
    and the members stay uncached. *)
Theorem cyclic_types_never_constructed (S : GoType → Prop) n t st r st' :
  stuck S st →
  resolve n t st = Some (r, st') →
  (S t → ∀ v, r ≠ Ok v) ∧
  (∀ X, S X → instances (ctr st') !! X = None) ∧
  (∀ ev X, ev ∈ new_calls st st' → constructed_for X ev → ¬ S X).
Proof.
  intros Hst H. destruct (resolve_stuck S n _ _ _ _ Hst H) as (Hst' & Hr & Hn).
  split_and!; [done| |done]. intros X HX. by destruct (Hst' _ HX).
Qed.

(** [head_cycle S st]: as [stuck], with the first parameter in the set. *)
Definition head_cycle (S : GoType → Prop) (st : State) : Prop :=
  ∀ X, S X →
    instances (ctr st) !! X = None ∧
    ∃ p d rest, providers (ctr st) !! X = Some p ∧ fn_in (Value_ p) = d :: rest ∧ S d.

(** No cycle detection: when each type of a set depends on the set through
    its first parameter (a constructor that takes its own product, say), a
    resolve call for a member does not return, whatever the recursion
    budget. *)
Theorem head_cycle_diverges (S : GoType → Prop) st :
  head_cycle S st → ∀ n t, S t → resolve n t st = None.
Proof.
  intros Hc. induction n as [|n IH]; intros t Ht; [done|].
  destruct (Hc _ Ht) as (Hi & p & d & rest & Hp & Hin & Hd).
  rewrite (resolve_S_provider _ _ _ _ Hi Hp), Hin. simpl.
  unfold mbind. by rewrite (IH _ Hd).
Qed.

End Recursion.

(** ** Injection: what [Invoke] and [Bind] hand over *)
Section Injection.
Context {World : Type}.
#[local] Abbreviation Func := (Func World).
#[local] Abbreviation Any := (Any World).
#[local] Abbreviation Spec := (Spec World).
#[local] Abbreviation Event := (Event World).
#[local] Abbreviation State := (State World).
#[local] Abbreviation M := (M World).

Implicit Types (st : State) (t T X d : GoType) (p : Spec) (f fn : Func) (c : Any).

(** [Invoke] checks its argument as [spec] does, and unlike [Bind]:
    whatever is not a function, the nil interface included, gets the error
    "invoke expects a function" and nothing happens. *)
Theorem Invoke_rejects_non_function n c st :
  (∀ fn, c ≠ AFunc fn) →
  Invoke n c st = Some (Err (VError "invoke expects a function"), st).
Proof. intros Hc. destruct c as [|fn| | | |]; try done. by destruct (Hc fn). Qed.

(** A nil function value passes every check.  Registered as a constructor
    it is accepted, and the resolution of its type panics once its
    arguments have been resolved; handed to [Invoke], the parameters are
    resolved first (instances are created and cached) and the call then
    panics. *)
Theorem nil_function_panics_at_call n f T st args st1 :
  fn_body f = None →
  resolve_args (resolve n) (fn_in f) st = Some (Ok args, st1) →
  Invoke n (AFunc f) st = Some (Panic panic_nil_func, st1) ∧
  (∀ sc, providers (ctr st) !! T = Some {| Type_ := T; Value_ := f; Scope_ := sc |} →
         instances (ctr st) !! T = None →
         resolve (S n) T st = Some (Panic panic_nil_func, st1)).
Proof.
  intros Hb H1. split.
  - simpl. rewrite (mbind_Ok _ _ _ _ _ H1). unfold mbind, Call. by rewrite Hb.
  - intros sc Hp Hi. rewrite (resolve_S_provider _ _ _ _ Hi Hp). simpl.
    rewrite (mbind_Ok _ _ _ _ _ H1). unfold construct, mbind, Call. simpl. by rewrite Hb.
Qed.

(** *** Injection from the cache *)
Lemma resolve_args_cached n ins st vs :
  mapM (λ t, instances (ctr st) !! t) ins = Some vs →
  resolve_args (resolve (S n)) ins st = Some (Ok vs, st).
Proof.
  intros H. apply mapM_Some_1 in H.
  induction H as [|t v ins vs Hv _ IH]; [done|].
  cbn [resolve_args]. rewrite (mbind_Ok _ _ _ v st) by by apply resolve_S_cached.
  by rewrite (mbind_Ok _ _ _ vs st).
Qed.

(** When every parameter type of [fn] has a cached instance, [Invoke]
    calls [fn] on exactly these instances; when every field type of an
    all-exported struct has one, [Bind] assigns exactly these instances.
    Neither calls a constructor nor changes the container. *)
Theorem cached_instances_injected n st :
  (∀ fn vs body out w,
     mapM (λ t, instances (ctr st) !! t) (fn_in fn) = Some vs →
     fn_body fn = Some body →
     body vs (world st) = (out, w) →
     Invoke (S n) (AFunc fn) st
     = Some (Ok (), {| ctr := ctr st; world := w; heap := heap st;
                       calls := calls st ++ [Invoked fn vs] |})) ∧
  (∀ addr s vs,
     heap st !! addr = Some s →
     Forall (λ fld, is_exported (f_name fld) = true) (s_fields s) →
     mapM (λ t, instances (ctr st) !! t) (f_type <$> s_fields s) = Some vs →
     Bind (S n) (AStructPtr addr) st
     = Some (Ok (), with_heap (<[addr := {| s_type := s_type s;
                                            s_fields := zip_with bound (s_fields s) vs |}]>
                                 (heap st)) st)).
Proof.
  split.
  - intros fn vs body out w Hvs Hb Hbody. simpl.
    rewrite (mbind_Ok _ _ _ _ _ (resolve_args_cached n _ _ _ Hvs)).
    unfold mbind, Call. by rewrite Hb, Hbody.
  - intros addr s vs Hh Hex Hvs. destruct s as [sname fields]. cbn [s_type s_fields] in *.
    unfold Bind. rewrite Hh. cbn [s_fields].
    pose proof (Bind_fields_prefix (S n) addr sname fields [] [] vs st st [] ) as HB.
    rewrite !app_nil_r in HB. cbn [app length Nat.add] in HB.
    rewrite HB; [done|done|done|]. by apply resolve_args_cached.
Qed.

(** The names Go does not export and that the embedding recognises as
    such: the first character is ASCII and no upper-case letter. *)
Definition starts_ascii_not_upper (name : string) : bool :=
  match name with
  | String c _ => (Ascii.nat_of_ascii c <? 128) && negb (is_exported name)
  | EmptyString => false
  end.

(** [Bind] panics at the first field whose name starts with an ASCII
    character that is no upper-case letter (an unexported field) and whose
    type resolves, after the resolution has taken place: the fields before
    it are assigned, the field and those after it are not. *)
Theorem Bind_unexported_field_panics n addr st s pre fK post vs st1 v st2 :
  heap st !! addr = Some s →
  s_fields s = pre ++ fK :: post →
  Forall (λ fld, is_exported (f_name fld) = true) pre →
  starts_ascii_not_upper (f_name fK) = true →
  resolve_args (resolve n) (f_type <$> pre) st = Some (Ok vs, st1) →
  resolve n (f_type fK) st1 = Some (Ok v, st2) →
  Bind n (AStructPtr addr) st
  = Some (Panic panic_unexported,
          with_heap (<[addr := {| s_type := s_type s;
                                  s_fields := zip_with bound pre vs ++ fK :: post |}]>
                       (heap st)) st2).
Proof.
  intros Hh Hf Hex HK0 H1 H2.
  assert (HK : is_exported (f_name fK) = false).
  { unfold starts_ascii_not_upper in HK0. destruct (f_name fK); [done|].
    apply andb_prop in HK0 as [_ HK0]. by apply negb_true_iff in HK0. }
  destruct s as [sname fields]. cbn [s_type s_fields] in *.
  subst fields. unfold Bind. rewrite Hh. cbn [s_fields]. rewrite fmap_app, fmap_cons.
  rewrite (Bind_fields_prefix n addr sname pre [] (fK :: post) vs st st1
             (f_type fK :: (f_type <$> post)) Hh Hex H1).
  cbn [Bind_fields app length Nat.add].
  set (h := <[addr := {| s_type := sname; s_fields := zip_with bound pre vs ++ fK :: post |}]>
              (heap st)).
  rewrite (mbind_Ok _ _ _ v (with_heap h st2)).
  2:{ rewrite heap_blind_resolve. by rewrite H2. }
  assert (Hlen : length (zip_with bound pre vs) = length pre).
  { apply length_zip_with_l_eq. clear -H1. revert st vs H1.
    induction pre as [|fld pre IH]; intros st vs H; simpl in H.
    - unfold mret in H. by simplify_eq.
    - apply mbind_inv in H as [(v0 & sta & Ha & H)|[(? & _ & ?)|(? & _ & ?)]]; [|done..].
      apply mbind_inv in H as [(vs' & stb & Hb & H)|[(? & _ & ?)|(? & _ & ?)]]; [|done..].
      unfold mret in H. simplify_eq. simpl. f_equal. by eapply IH. }
  unfold mbind, Field_Set. simpl. unfold h. rewrite lookup_insert_eq. simpl.
  rewrite (list_lookup_middle _ _ fK) by done. by rewrite HK.
Qed.

End Injection.

(** ** Every consumer of a singleton sees the same instance *)
Section Consistency.
Context {World : Type}.
#[local] Abbreviation Func := (Func World).
#[local] Abbreviation Any := (Any World).
#[local] Abbreviation Spec := (Spec World).
#[local] Abbreviation Event := (Event World).
#[local] Abbreviation State := (State World).
#[local] Abbreviation M := (M World).

Implicit Types (st : State) (t T X d : GoType) (p : Spec) (f fn : Func) (ev : Event).

(** [v] is a legitimate argument for a parameter of type [d] in [st]: the
    cached instance of [d], or a value of a type that is not cached and
    whose provider is Transient. *)
Definition arg_ok (st : State) (d : GoType) (v : Value) : Prop :=
  instances (ctr st) !! d = Some v ∨
  (instances (ctr st) !! d = None ∧
   ∃ p, providers (ctr st) !! d = Some p ∧ Scope_ p = ScopeTransient).

Definition event_ok (st : State) (ev : Event) : Prop :=
  match ev with
  | Constructed _ f args | Invoked f args => Forall2 (arg_ok st) (fn_in f) args
  end.

Lemma arg_ok_grows st st' d v : grows st st' → arg_ok st d v → arg_ok st' d v.
Proof.
  intros Hg [Hv|(Hn & p & Hp & Hs)].
  - left. by eapply grows_cached.
  - destruct (instances (ctr st') !! d) as [v'|] eqn:E.
    + destruct (grows_singleton _ _ Hg d Hn) as (p' & Hp' & Hs'); [by rewrite E|].
      simplify_eq. congruence.
    + right. split; [done|]. exists p. by rewrite (frame_providers _ _ (grows_frame _ _ Hg)).
Qed.

Lemma event_ok_grows st st' ev : grows st st' → event_ok st ev → event_ok st' ev.
Proof.
  intros Hg. destruct ev; simpl; intros HF; (eapply Forall2_impl; [exact HF|]);
    eauto using arg_ok_grows.
Qed.

Lemma resolve_arg_ok n d st v st' : resolve n d st = Some (Ok v, st') → arg_ok st' d v.
Proof.
  intros H. destruct n as [|n]; [done|].
  destruct (instances (ctr st) !! d) as [inst|] eqn:Hi.
  { rewrite (resolve_S_cached _ _ _ _ Hi) in H. simplify_eq. by left. }
  destruct (providers (ctr st) !! d) as [p|] eqn:Hp.
  2:{ by rewrite (resolve_S_no_provider _ _ _ Hi Hp) in H. }
  pose proof (resolve_uncached_result _ _ _ _ _ _ Hi Hp H) as Hr. simpl in Hr.
  destruct (Scope_ p) eqn:Hs; [right|by left].
  split; [done|]. exists p. by rewrite (frame_providers _ _ (resolve_frame _ _ _ _ _ H)).
Qed.

Lemma resolve_args_ok n :
  ∀ ins st vs st', resolve_args (resolve n) ins st = Some (Ok vs, st') →
    Forall2 (arg_ok st') ins vs.
Proof.
  induction ins as [|d ins IH]; intros st vs st' H; simpl in H.
  - unfold mret in H. simplify_eq. constructor.
  - apply mbind_inv in H as [(v & st1 & H1 & H)|[(? & _ & ?)|(? & _ & ?)]]; [|done..].
    apply mbind_inv in H as [(vs' & st2 & H2 & H)|[(? & _ & ?)|(? & _ & ?)]]; [|done..].
    unfold mret in H. simplify_eq. constructor; [|by eapply IH].
    eapply arg_ok_grows; [by eapply resolve_args_grows|by eapply resolve_arg_ok].
Qed.

(** [calls_ok st st']: [grows], and the calls logged in between have
    legitimate arguments with respect to [st']. *)
Definition calls_ok (st st' : State) : Prop :=
  grows st st' ∧ ∀ ev, ev ∈ new_calls st st' → event_ok st' ev.

Lemma calls_ok_refl st : calls_ok st st.
Proof. split; [apply grows_refl|]. rewrite new_calls_refl. by intros ev ?%elem_of_nil. Qed.

Lemma calls_ok_trans st st1 st2 : calls_ok st st1 → calls_ok st1 st2 → calls_ok st st2.
Proof.
  intros [Hg1 H1] [Hg2 H2]. split; [by eapply grows_trans|].
  rewrite (new_calls_trans _ _ _ (grows_frame _ _ Hg1) (grows_frame _ _ Hg2)).
  intros ev [?|?]%elem_of_app; [|by eauto].
  eapply event_ok_grows; eauto.
Qed.

Lemma resolve_calls_ok n : ∀ t st r st', resolve n t st = Some (r, st') → calls_ok st st'.
Proof.
  induction n as [|n IH]; intros t st r st' H; [done|].
  destruct (instances (ctr st) !! t) as [inst|] eqn:Hi.
  { rewrite (resolve_S_cached _ _ _ _ Hi) in H. simplify_eq. apply calls_ok_refl. }
  destruct (providers (ctr st) !! t) as [p|] eqn:Hp.
  2:{ rewrite (resolve_S_no_provider _ _ _ Hi Hp) in H. simplify_eq. apply calls_ok_refl. }
  destruct (resolve_provider_inv _ _ _ _ _ _ Hi Hp H)
    as (n' & ra & st1 & [= <-] & H1 & Hg & Hi1 & _ & Hra).
  pose proof (resolve_args_rel calls_ok (resolve n) calls_ok_refl calls_ok_trans IH
                _ _ _ _ H1) as Hok1.
  destruct ra as [args|e|msg]; [|by destruct Hra as [-> ->]..].
  eapply calls_ok_trans; [done|].
  assert (Hp1 : providers (ctr st1) !! t = Some p).
  { by rewrite (frame_providers _ _ (grows_frame _ _ Hg)). }
  pose proof (construct_grows _ _ _ _ _ _ Hi1 Hp1 Hra) as Hg2.
  split; [done|]. intros ev Hev.
  apply construct_inv in Hra
    as (_ & _ & _ & [(_ & _ & ->)|(body & out & w & _ & _ & _ & Hcalls & _)]).
  { rewrite new_calls_refl in Hev. by apply elem_of_nil in Hev. }
  rewrite (new_calls_app _ _ _ Hcalls) in Hev. apply list_elem_of_singleton in Hev as ->.
  simpl. eapply Forall2_impl; [by eapply resolve_args_ok|].
  intros d v. by apply arg_ok_grows.
Qed.

(** Within one resolution, each constructor is called with as many
    arguments as it has parameters, and every argument whose type has an
    instance in the cache afterwards is that instance: no consumer of a
    Singleton ever receives another value than the cached one. *)
Theorem constructors_receive_cached_instances n t st r st' X f args :
  resolve n t st = Some (r, st') →
  Constructed X f args ∈ new_calls st st' →
  length args = length (fn_in f) ∧
  ∀ i d v v', fn_in f !! i = Some d → args !! i = Some v →
    instances (ctr st') !! d = Some v' → v = v'.
Proof.
  intros H Hev. destruct (resolve_calls_ok _ _ _ _ _ H) as [_ Hok].
  pose proof (Hok _ Hev) as HF. simpl in HF.
  split; [symmetry; by eapply Forall2_length|].
  intros i d v v' Hd Hv Hv'.
  destruct (Forall2_lookup_lr _ _ _ _ _ _ HF Hd Hv) as [E|[E _]]; congruence.
Qed.

(** The same for the function handed to [Invoke]: it is called with one
    argument for each parameter, and each argument whose type has an
    instance in the cache is that instance. *)
Theorem Invoke_passes_cached_instances n fn st st' :
  Invoke n (AFunc fn) st = Some (Ok (), st') →
  ∃ args,
    last (calls st') = Some (Invoked fn args) ∧
    length args = length (fn_in fn) ∧
    ∀ i d v v', fn_in fn !! i = Some d → args !! i = Some v →
      instances (ctr st') !! d = Some v' → v = v'.
Proof.
  simpl. intros H.
  apply mbind_inv in H as [(args & st1 & H1 & H)|[(? & _ & ?)|(? & _ & ?)]]; [|done..].
  apply mbind_inv in H as [(out & st2 & H2 & H)|[(? & _ & ?)|(? & _ & ?)]]; [|done..].
  unfold mret in H. simplify_eq.
  pose proof (resolve_args_ok _ _ _ _ _ H1) as HF.
  apply Call_inv in H2 as [(body & out' & w & _ & _ & _ & ->)|(_ & ? & _)]; [|done].
  exists args. split_and!; [simpl; by rewrite last_snoc|symmetry; by eapply Forall2_length|].
  simpl. intros i d v v' Hd Hv Hv'.
  destruct (Forall2_lookup_lr _ _ _ _ _ _ HF Hd Hv) as [E|[E _]]; congruence.
Qed.

End Consistency.

(** * The container without scopes (cosmo.go)

    The first variant of the package registers constructors with [Add]
    only and its [Resolve] caches every instance it builds.  The machine
    state, the outcomes and the call log are as above. *)
Module Unscoped.
Section Unscoped.
Context {World : Type}.
#[local] Abbreviation Func := (Func World).
#[local] Abbreviation Any := (Any World).
#[local] Abbreviation Event := (Event World).

(** type Container struct *)
Record Container : Type := {
  providers : gmap GoType Func;
  instances : gmap GoType Value
}.

Record State : Type := {
  ctr : Container;
  world : World;
  heap : gmap nat StructVar;
  calls : list Event
}.

(** func New() *Container *)
Definition New : Container := {| providers := ∅; instances := ∅ |}.

Definition M (A : Type) : Type := State → option (result A * State).

Definition ret {A} (a : A) : M A := λ st, Some (Ok a, st).
Definition fail {A} (e : Value) : M A := λ st, Some (Err e, st).
Definition panic {A} (msg : string) : M A := λ st, Some (Panic msg, st).

Definition bind {A B} (m : M A) (k : A → M B) : M B := λ st,
  match m st with
  | None => None
  | Some (Ok a, st1) => k a st1
  | Some (Err e, st1) => Some (Err e, st1)
  | Some (Panic msg, st1) => Some (Panic msg, st1)
  end.

#[local] Notation "'let+' x ':=' m 'in' k" := (bind m (λ x, k))
  (at level 10, x pattern, m at level 100, k at level 200).

(** func (c *Container) Add(constructor any) error *)
Definition Add (constructor : Any) : M unit :=
  match constructor with
  | ANil => panic panic_zero_Value                  (* v.Type() of the zero Value *)
  | AFunc v =>
      if (length (fn_out v) =? 0) || (2 <? length (fn_out v))
      then fail (errors_New "constructor must return T or (T, error)")
      else match fn_out v with
           | resultType :: _ => λ st,
               ret () {| ctr := {| providers := <[resultType := v]> (providers (ctr st));
                                   instances := instances (ctr st) |};
                         world := world st; heap := heap st; calls := calls st |}
           | [] => panic panic_index
           end
  | _ => fail (errors_New "constructor must be a function")
  end.

(** [v.Call(args)] *)
Definition Call (ev : Func → list Value → Event) (v : Func) (args : list Value)
    : M (list Value) := λ st,
  match fn_body v with
  | None => panic panic_nil_func st
  | Some body =>
      let '(out, w) := body args (world st) in
      ret out {| ctr := ctr st; world := w; heap := heap st;
                 calls := calls st ++ [ev v args] |}
  end.

Fixpoint resolve_args (rec : GoType → M Value) (ins : list GoType) : M (list Value) :=
  match ins with
  | [] => ret []
  | argType :: rest =>
      let+ val := rec argType in
      let+ vals := resolve_args rec rest in
      ret (val :: vals)
  end.

(** if len(out) == 2 && !out[1].IsNil() { return ..., out[1].Interface().(error) } *)
Definition check_error (v : Func) (out : list Value) : M unit :=
  match out with
  | [_; out1] =>
      match nilable <$> fn_out v !! 1 with
      | Some true =>
          match out1 with
          | VNil => ret ()
          | VError _ => fail out1
          | VData _ | VZero => panic panic_not_error
          end
      | _ => panic panic_IsNil
      end
  | _ => ret ()
  end.

(** func (c *Container) Resolve(t reflect.Type) (reflect.Value, error) *)
Fixpoint Resolve (fuel : nat) (t : GoType) : M Value := λ st,
  match fuel with
  | 0 => None
  | S fuel' =>
      match instances (ctr st) !! t with
      | Some inst => ret inst st
      | None =>
          match providers (ctr st) !! t with
          | None => fail (Errorf_no_provider t) st
          | Some provider =>
              (let+ args := resolve_args (Resolve fuel') (fn_in provider) in
               let+ out := Call (Constructed t) provider args in
               let+ _ := check_error provider out in
               let+ result := match out with
                              | out0 :: _ => ret out0
                              | [] => panic panic_index
                              end in
               let+ _ := (λ st1,
                 ret () {| ctr := {| providers := providers (ctr st1);
                                     instances := <[t := result]> (instances (ctr st1)) |};
                           world := world st1; heap := heap st1; calls := calls st1 |}) in
               ret result) st
          end
      end
  end.

(** func (c *Container) Invoke(fn any) error *)
Definition Invoke (fuel : nat) (fn : Any) : M unit :=
  match fn with
  | AFunc v =>
      let+ args := resolve_args (Resolve fuel) (fn_in v) in
      let+ _ := Call Invoked v args in
      ret ()
  | _ => fail (errors_New "invoke expects a function")
  end.

(** field.Set(val) *)
Definition Field_Set (addr i : nat) (val : Value) : M unit := λ st,
  match heap st !! addr with
  | None => panic panic_dangling st
  | Some s =>
      match s_fields s !! i with
      | None => panic panic_index st
      | Some fld =>
          if is_exported (f_name fld)
          then ret () {| ctr := ctr st; world := world st;
                         heap := <[addr := set_field i val s]> (heap st);
                         calls := calls st |}
          else panic panic_unexported st
      end
  end.

Fixpoint Bind_fields (fuel : nat) (addr i : nat) (types : list GoType) : M unit :=
  match types with
  | [] => ret ()
  | fieldType :: rest =>
      let+ val := Resolve fuel fieldType in
      let+ _ := Field_Set addr i val in
      Bind_fields fuel addr (S i) rest
  end.

(** func (c *Container) Bind(out any) error *)
Definition Bind (fuel : nat) (out : Any) : M unit :=
  match out with
  | AStructPtr addr => λ st,
      match heap st !! addr with
      | None => panic panic_dangling st
      | Some s => Bind_fields fuel addr 0 (f_type <$> s_fields s) st
      end
  | ANilPtr _ => panic panic_zero_Value
  | AOtherPtr _ => panic panic_NumField
  | ANil | AFunc _ | AValue _ _ => panic panic_Elem
  end.

End Unscoped.

Arguments Container : clear implicits.
Arguments State : clear implicits.
Arguments M : clear implicits.
End Unscoped.

(** ** The unscoped container is the scoped one with Singletons only *)
Section Unscoped_simulation.
Context {World : Type}.
#[local] Abbreviation Func := (Func World).
#[local] Abbreviation Any := (Any World).
#[local] Abbreviation UState := (Unscoped.State World).
#[local] Abbreviation UM := (Unscoped.M World).
#[local] Abbreviation State := (State World).
#[local] Abbreviation M := (M World).

Implicit Types (s : UState) (st : State) (t T : GoType) (f : Func) (c : Any).

Definition as_singleton (t : GoType) (v : Func) : option (Spec World) :=
  Some {| Type_ := t; Value_ := v; Scope_ := ScopeSingleton |}.

(** The scoped state that corresponds to an unscoped one: the same
    instances, and every provider registered as a Singleton. *)
Definition scoped (s : UState) : State :=
  {| ctr := {| configurations := ∅;
               providers := map_imap as_singleton (Unscoped.providers (Unscoped.ctr s));
               instances := Unscoped.instances (Unscoped.ctr s) |};
     world := Unscoped.world s;
     heap := Unscoped.heap s;
     calls := Unscoped.calls s |}.

Definition scoped_outcome {A} (o : option (result A * UState)) : option (result A * State) :=
  (λ rs, (rs.1, scoped rs.2)) <$> o.

(** [m] does on the corresponding scoped state what [m1] does. *)
Definition simulates {A} (m1 : UM A) (m : M A) : Prop :=
  ∀ s, m (scoped s) = scoped_outcome (m1 s).

Lemma simulates_ret {A} (a : A) : simulates (Unscoped.ret a) (mret a).
Proof. done. Qed.

Lemma simulates_fail {A} e : simulates (@Unscoped.fail World A e) (mfail e).
Proof. done. Qed.

Lemma simulates_panic {A} msg : simulates (@Unscoped.panic World A msg) (mpanic msg).
Proof. done. Qed.

Lemma simulates_bind {A B} (m1 : UM A) (m : M A) (k1 : A → UM B) (k : A → M B) :
  simulates m1 m → (∀ a, simulates (k1 a) (k a)) →
  simulates (Unscoped.bind m1 k1) (mbind m k).
Proof.
  intros Hm Hk s. unfold mbind, Unscoped.bind. rewrite Hm.
  destruct (m1 s) as [[[a|e|msg] s1]|]; simpl; [apply Hk|done..].
Qed.

Lemma simulates_Call ev f args : simulates (Unscoped.Call ev f args) (Call ev f args).
Proof.
  intros s. unfold Call, Unscoped.Call. destruct (fn_body f) as [body|]; [|done].
  simpl. by destruct (body args (Unscoped.world s)).
Qed.

Lemma simulates_check_error f out :
  simulates (Unscoped.check_error f out) (check_error f out).
Proof.
  unfold check_error, Unscoped.check_error.
  repeat case_match; auto using simulates_ret, simulates_fail, simulates_panic.
Qed.

Lemma simulates_resolve_args (rec1 : GoType → UM Value) (rec : GoType → M Value) :
  (∀ t, simulates (rec1 t) (rec t)) →
  ∀ ins, simulates (Unscoped.resolve_args rec1 ins) (resolve_args rec ins).
Proof.
  intros Hrec. induction ins as [|t ins IH]; simpl; [apply simulates_ret|].
  apply simulates_bind; [done|intros v].
  apply simulates_bind; [done|intros vs]. apply simulates_ret.
Qed.

Lemma simulates_Resolve n : ∀ t, simulates (Unscoped.Resolve n t) (resolve n t).
Proof.
  induction n as [|n IH]; intros t s; [done|].
  destruct (Unscoped.instances (Unscoped.ctr s) !! t) as [inst|] eqn:Hi.
  { rewrite (resolve_S_cached n t (scoped s) inst) by done. simpl. by rewrite Hi. }
  destruct (Unscoped.providers (Unscoped.ctr s) !! t) as [v|] eqn:Hp.
  - rewrite (resolve_S_provider n t (scoped s)
               {| Type_ := t; Value_ := v; Scope_ := ScopeSingleton |}); [|done|].
    2:{ simpl. by rewrite map_lookup_imap, Hp. }
    cbn [Unscoped.Resolve]. rewrite Hi, Hp.
    apply simulates_bind; [by apply simulates_resolve_args|intros args].
    unfold construct.
    apply simulates_bind; [apply simulates_Call|intros out].
    apply simulates_bind; [apply simulates_check_error|intros _].
    apply simulates_bind;
      [destruct out; [apply simulates_panic|apply simulates_ret]|intros result].
    apply simulates_bind; [done|intros _; apply simulates_ret].
  - rewrite (resolve_S_no_provider n t (scoped s)); [|done|].
    2:{ simpl. by rewrite map_lookup_imap, Hp. }
    simpl. by rewrite Hi, Hp.
Qed.

Lemma simulates_Add c : simulates (Unscoped.Add c) (AddSingleton c).
Proof.
  intros s. unfold AddSingleton, AddWithScope, Unscoped.Add, mbind, mlift.
  destruct c as [|v| | | |]; try done. simpl.
  destruct ((length (fn_out v) =? 0) || (2 <? length (fn_out v))); [done|].
  destruct (fn_out v) as [|t outs]; [done|].
  unfold mret, Unscoped.ret, scoped_outcome, scoped, with_ctr. simpl.
  by rewrite map_imap_insert.
Qed.

Lemma simulates_Invoke n c : simulates (Unscoped.Invoke n c) (Invoke n c).
Proof.
  destruct c as [|v| | | |]; try apply simulates_fail. simpl.
  apply simulates_bind; [apply simulates_resolve_args, simulates_Resolve|intros args].
  apply simulates_bind; [apply simulates_Call|intros _; apply simulates_ret].
Qed.

Lemma simulates_Field_Set addr i val :
  simulates (Unscoped.Field_Set addr i val) (Field_Set addr i val).
Proof.
  intros s. unfold Field_Set, Unscoped.Field_Set. simpl.
  destruct (Unscoped.heap s !! addr) as [sv|]; [|done].
  destruct (s_fields sv !! i) as [fld|]; [|done].
  by destruct (is_exported (f_name fld)).
Qed.

Lemma simulates_Bind_fields n addr :
  ∀ types i, simulates (Unscoped.Bind_fields n addr i types) (Bind_fields n addr i types).
Proof.
  induction types as [|t types IH]; intros i; simpl; [apply simulates_ret|].
  apply simulates_bind; [apply simulates_Resolve|intros val].
  apply simulates_bind; [apply simulates_Field_Set|intros _; apply IH].
Qed.

Lemma simulates_Bind n c : simulates (Unscoped.Bind n c) (Bind n c).
Proof.
  destruct c as [| |addr| | |]; try apply simulates_panic.
  intros s. simpl. destruct (Unscoped.heap s !! addr) as [sv|]; [|done].
  apply simulates_Bind_fields.
Qed.

(** The container of cosmo.go behaves as the scoped container in which
    every constructor is registered with [AddSingleton]: on corresponding
    states its [Add], [Resolve], [Invoke] and [Bind] return the same
    outcome and leave corresponding states. *)
Theorem unscoped_is_all_singleton :
  (∀ c, simulates (Unscoped.Add c) (AddSingleton c)) ∧
  (∀ n t, simulates (Unscoped.Resolve n t) (resolve n t)) ∧
  (∀ n c, simulates (Unscoped.Invoke n c) (Invoke n c)) ∧
  (∀ n c, simulates (Unscoped.Bind n c) (Bind n c)).
Proof.
  split_and!; auto using simulates_Add, simulates_Resolve, simulates_Invoke, simulates_Bind.
Qed.

(** In cosmo.go every instance that [Resolve] returns is cached: the
    cache holds it under the requested type, keeps what it held before,
    and every later [Resolve] of the type returns it without calling a
    constructor. *)
Theorem Resolve_caches_every_instance n T s v s1 :
  Unscoped.Resolve n T s = Some (Ok v, s1) →
  Unscoped.instances (Unscoped.ctr s1) !! T = Some v ∧
  Unscoped.instances (Unscoped.ctr s) ⊆ Unscoped.instances (Unscoped.ctr s1) ∧
  ∀ m, Unscoped.Resolve (S m) T s1 = Some (Ok v, s1).
Proof.
  intros H.
  assert (Hsim : resolve n T (scoped s) = Some (Ok v, scoped s1)).
  { by rewrite simulates_Resolve, H. }
  pose proof (resolve_grows _ _ _ _ _ Hsim) as Hg.
  assert (Hv : Unscoped.instances (Unscoped.ctr s1) !! T = Some v).
  { destruct (Unscoped.instances (Unscoped.ctr s) !! T) as [inst|] eqn:Hi.
    - destruct n as [|n]; [done|].
      rewrite (resolve_S_cached n T (scoped s) inst) in Hsim by done. simplify_eq.
      change (instances (ctr (scoped s1)) !! T = Some v). by apply (grows_cached _ _ _ _ Hg).
    - destruct (Unscoped.providers (Unscoped.ctr s) !! T) as [f|] eqn:Hp.
      + change (instances (ctr (scoped s1)) !! T = Some v).
        rewrite (resolve_uncached_result n T (scoped s)
                   {| Type_ := T; Value_ := f; Scope_ := ScopeSingleton |} _ _ Hi
                   ltac:(simpl; by rewrite map_lookup_imap, Hp) Hsim).
        done.
      + destruct n as [|n]; [done|].
        rewrite (resolve_S_no_provider n T (scoped s)) in Hsim; [done|done|].
        simpl. by rewrite map_lookup_imap, Hp. }
  split_and!; [done|apply (grows_instances _ _ Hg)|].
  intros m. simpl. by rewrite Hv.
Qed.

End Unscoped_simulation.

(** ** More on one resolution *)
Section Construction.
Context {World : Type}.
#[local] Abbreviation Func := (Func World).
#[local] Abbreviation Spec := (Spec World).
#[local] Abbreviation State := (State World).
#[local] Abbreviation M := (M World).

Implicit Types (st : State) (t T X d : GoType) (p : Spec) (f : Func).

(** The way [resolve] succeeds.  When [T] is not cached, the arguments of
    its constructor resolve and the constructor returns either one value,
    or a value and a nil error, [resolve] returns that value; the
    constructor has been called once, on the resolved arguments, and the
    value is cached exactly when the scope is Singleton. *)
Theorem resolve_returns_first_output n T st p args st1 body out v w :
  instances (ctr st) !! T = None →
  providers (ctr st) !! T = Some p →
  resolve_args (resolve n) (fn_in (Value_ p)) st = Some (Ok args, st1) →
  fn_body (Value_ p) = Some body →
  body args (world st1) = (out, w) →
  out = [v] ∨ (out = [v; VNil] ∧ nilable <$> fn_out (Value_ p) !! 1 = Some true) →
  resolve (S n) T st
  = Some (Ok v,
          {| ctr := {| configurations := configurations (ctr st1);
                       providers := providers (ctr st1);
                       instances := scope_store (Scope_ p) T v (instances (ctr st1)) |};
             world := w; heap := heap st1;
             calls := calls st1 ++ [Constructed T (Value_ p) args] |}).
Proof.
  intros Hi Hp H1 Hb Hbody Hout.
  rewrite (resolve_S_provider _ _ _ _ Hi Hp), (mbind_Ok _ _ _ _ _ H1).
  unfold construct, mbind, Call. rewrite Hb, Hbody. unfold mret, check_error.
  destruct Hout as [->|[-> Hnil]]; [|rewrite Hnil];
    destruct (Scope_ p); simpl; unfold mret, store_instance, with_ctr; simpl;
    try done; by destruct (ctr st1).
Qed.

(** Registration counts the outputs of a constructor and does not look at
    the type of the second.  When the second output is declared with a type
    that cannot be nil, [resolve] panics in [IsNil]; when it can be nil and
    the value is neither nil nor an error, [resolve] panics in the type
    assertion.  Either way the constructor has run and nothing is cached
    for [T]. *)
Theorem second_output_not_error_panics n T st p args st1 body out0 out1 w :
  instances (ctr st) !! T = None →
  providers (ctr st) !! T = Some p →
  resolve_args (resolve n) (fn_in (Value_ p)) st = Some (Ok args, st1) →
  fn_body (Value_ p) = Some body →
  body args (world st1) = ([out0; out1], w) →
  let st' := {| ctr := ctr st1; world := w; heap := heap st1;
                calls := calls st1 ++ [Constructed T (Value_ p) args] |} in
  (nilable <$> fn_out (Value_ p) !! 1 = Some false →
   resolve (S n) T st = Some (Panic panic_IsNil, st')) ∧
  (nilable <$> fn_out (Value_ p) !! 1 = Some true →
   (∃ k, out1 = VData k) →
   resolve (S n) T st = Some (Panic panic_not_error, st')) ∧
  instances (ctr st') !! T = None.
Proof.
  intros Hi Hp H1 Hb Hbody st'. split_and!.
  - intros Hnil. rewrite (resolve_S_provider _ _ _ _ Hi Hp), (mbind_Ok _ _ _ _ _ H1).
    unfold construct, mbind, Call. rewrite Hb, Hbody. unfold mret, check_error.
    by rewrite Hnil.
  - intros Hnil [k ->].
    rewrite (resolve_S_provider _ _ _ _ Hi Hp), (mbind_Ok _ _ _ _ _ H1).
    unfold construct, mbind, Call. rewrite Hb, Hbody. unfold mret, check_error.
    by rewrite Hnil.
  - simpl. destruct (instances (ctr st1) !! T) as [v|] eqn:E; [|done].
    destruct (resolve_args_self_untouched _ _ _ _ _ _ Hi Hp H1). left. by rewrite E.
Qed.

(** A resolution touches only what the requested type depends on: a type
    that gets cached, or whose constructor is called, during resolve(t) is
    reached from [t] through the parameters of providers, along types that
    were not cached before. *)
Theorem resolve_touches_only_dependencies n t st r st' X :
  resolve n t st = Some (r, st') →
  (instances (ctr st) !! X = None ∧ is_Some (instances (ctr st') !! X)) ∨
  (∃ ev, ev ∈ new_calls st st' ∧ constructed_for X ev) →
  Reach st t X.
Proof. intros H Ht. by eapply resolve_touched. Qed.

End Construction.

(** * The further properties on the scenario of the tests *)

(** c.Configure("DBConfig", func() Config {...}) on a new container *)
Definition st_configured : State nat :=
  after (Configure "DBConfig" (AFunc newConfig)) st_new.

(** The registry after the two registrations of the test. *)
Lemma providers_registered :
  providers (ctr st_registered)
  = <[DBService := {| Type_ := DBService; Value_ := newDBService; Scope_ := ScopeTransient |}]>
      (<[Config := {| Type_ := Config; Value_ := newConfig; Scope_ := ScopeSingleton |}]> ∅).
Proof. reflexivity. Qed.

Lemma registration_succeeds_iff_witness :
  AddWithScope ScopeSingleton (AFunc newConfig) st_new
  = Some (Ok (), registers ScopeSingleton Config newConfig st_new).
Proof.
  apply (proj2 (registration_succeeds_iff ScopeSingleton (AFunc newConfig) st_new
                  (registers ScopeSingleton Config newConfig st_new))).
  exists newConfig, Config. split_and!; [reflexivity|reflexivity|simpl; lia|reflexivity].
Defined.

(** c.Add(Config{}), c.AddSingleton(Config{}), c.Configure("DBConfig", Config{}) *)
Lemma invalid_constructor_rejected_witness :
  let e := VError "constructor must be a function" in
  (∀ sc, AddWithScope sc (AValue Config (VData 0)) st_new = Some (Err e, st_new)) ∧
  Add (AValue Config (VData 0)) st_new = Some (Err e, st_new) ∧
  AddSingleton (AValue Config (VData 0)) st_new = Some (Err e, st_new) ∧
  (∀ key, Configure key (AValue Config (VData 0)) st_new = Some (Err e, st_new)).
Proof.
  apply (invalid_constructor_rejected (AValue Config (VData 0)) st_new); [done|].
  intros f Hf. discriminate Hf.
Defined.

Lemma resolution_keeps_registry_witness :
  let st' := after (Invoke 3 (AFunc useDBService)) st_registered in
  providers (ctr st') = providers (ctr st_registered) ∧
  configurations (ctr st') = configurations (ctr st_registered).
Proof.
  apply (resolution_keeps_registry 3 (OpInvoke (AFunc useDBService)) st_registered);
    vm_compute; reflexivity.
Defined.

Lemma registration_is_lazy_witness :
  calls st_configured = calls st_new ∧ world st_configured = world st_new ∧
  heap st_configured = heap st_new ∧
  instances (ctr st_configured) = instances (ctr st_new).
Proof.
  apply (registration_is_lazy 0 (OpConfigure "DBConfig" (AFunc newConfig)) st_new);
    vm_compute; reflexivity.
Defined.

Lemma reachable_container_ok_witness :
  container_ok (after (Get 2 "DBConfig") (after (Configure "DBConfig" (AFunc newConfig))
                                            (initial 0 ∅))).
Proof.
  apply (reachable_container_ok
           [(0, OpConfigure "DBConfig" (AFunc newConfig)); (2, OpGet "DBConfig")] 0 ∅).
  vm_compute. reflexivity.
Defined.

(** cfg := c.Get("Config"): the name of the type is not a configured key. *)
Lemma Get_drops_errors_witness :
  Get 1 "Config" st_configured = Some (Ok None, st_configured).
Proof.
  apply (proj1 (Get_drops_errors 1 "Config" st_configured)).
  vm_compute. reflexivity.
Defined.

Lemma Configure_then_Get_witness :
  let st1 := configures "DBConfig" Config (registers ScopeSingleton Config newConfig st_new) in
  let st3 := after (resolve 1 Config) st1 in
  Configure "DBConfig" (AFunc newConfig) st_new = Some (Ok (), st1) ∧
  Get 1 "DBConfig" st1 = Some (Ok (Some (VData 1)), st3) ∧
  instances (ctr st3) !! Config = Some (VData 1) ∧
  ∀ ops st4, run ops st3 = Some st4 →
    configurations (ctr st4) !! "DBConfig" = Some Config →
    ∀ m, Get (S m) "DBConfig" st4 = Some (Ok (Some (VData 1)), st4).
Proof.
  apply (Configure_then_Get "DBConfig" newConfig Config st_new 1 (VData 1));
    [reflexivity|simpl; lia|vm_compute; reflexivity|vm_compute; reflexivity].
Defined.

Lemma Configure_keeps_instance_witness :
  ∃ st1, Configure "Cfg" (AFunc otherConfig) (after (resolve 1 Config) st_registered)
         = Some (Ok (), st1) ∧
         providers (ctr st1) !! Config
         = Some {| Type_ := Config; Value_ := otherConfig; Scope_ := ScopeSingleton |} ∧
         ∀ m, Get (S m) "Cfg" st1 = Some (Ok (Some (VData 1)), st1).
Proof.
  apply (Configure_keeps_instance "Cfg" otherConfig Config
           (after (resolve 1 Config) st_registered) (VData 1));
    [reflexivity|simpl; lia|vm_compute; reflexivity].
Defined.

Lemma configured_keys_share_instance_witness :
  let st1 := configures "A" Config (registers ScopeSingleton Config newConfig st_new) in
  let st2 := configures "B" Config (registers ScopeSingleton Config otherConfig st1) in
  let st3 := after (resolve 1 Config) st2 in
  Configure "A" (AFunc newConfig) st_new = Some (Ok (), st1) ∧
  Configure "B" (AFunc otherConfig) st1 = Some (Ok (), st2) ∧
  Get 1 "A" st2 = Some (Ok (Some (VData 7)), st3) ∧
  (∀ m, Get (S m) "B" st3 = Some (Ok (Some (VData 7)), st3)) ∧
  (∀ ev, ev ∈ new_calls st2 st3 → constructed_for Config ev → calls_func otherConfig ev).
Proof.
  apply (configured_keys_share_instance "A" "B" newConfig otherConfig Config st_new 1 (VData 7));
    [reflexivity|simpl; lia|reflexivity|simpl; lia|vm_compute; reflexivity
    |vm_compute; reflexivity].
Defined.

(** Config ranks below DBService, which depends on it. *)
Definition rank_registered (t : GoType) : nat :=
  if decide (t = DBService) then 1 else 0.

Lemma ranked_registered : ranked rank_registered st_registered.
Proof.
  intros t p d. rewrite providers_registered.
  destruct (decide (DBService = t)) as [<-|Hdb].
  - rewrite lookup_insert_eq. intros [= <-] Hd. simpl in Hd.
    apply list_elem_of_singleton in Hd as ->. vm_compute. lia.
  - rewrite lookup_insert_ne by done. destruct (decide (Config = t)) as [<-|Hcfg].
    + rewrite lookup_insert_eq. intros [= <-] Hd. simpl in Hd. by apply elem_of_nil in Hd.
    + by rewrite lookup_insert_ne, lookup_empty.
Qed.

Lemma acyclic_resolve_returns_witness : is_Some (resolve 2 DBService st_registered).
Proof.
  apply (acyclic_resolve_returns rank_registered 2 DBService st_registered ranked_registered).
  vm_compute. lia.
Defined.

(** func(cfg Config) Config: a constructor that needs its own product. *)
Definition selfConfig : Func nat :=
  {| fn_id := 8; fn_in := [Config]; fn_out := [Config];
     fn_body := Some (λ _ w, ([VData 1], w)) |}.

(** func(log Logger, cfg Config) Config: the same behind an unregistered type. *)
Definition loggedSelfConfig : Func nat :=
  {| fn_id := 9; fn_in := [Logger; Config]; fn_out := [Config];
     fn_body := Some (λ _ w, ([VData 1], w)) |}.

Definition st_self : State nat := after (Add (AFunc selfConfig)) st_new.
Definition st_logged_self : State nat := after (Add (AFunc loggedSelfConfig)) st_new.

Lemma stuck_logged_self : stuck (λ X, X = Config) st_logged_self.
Proof.
  intros X ->. split; [vm_compute; reflexivity|].
  exists {| Type_ := Config; Value_ := loggedSelfConfig; Scope_ := ScopeTransient |}, Config.
  split_and!; [vm_compute; reflexivity| |reflexivity].
  simpl. apply list_elem_of_further, list_elem_of_here.
Qed.

Lemma cyclic_types_never_constructed_witness :
  (Config = Config →
   ∀ v, @Err Value (VError "no provider for type cosmo.Logger") ≠ Ok v) ∧
  (∀ X, X = Config → instances (ctr st_logged_self) !! X = None) ∧
  (∀ ev X, ev ∈ new_calls st_logged_self st_logged_self → constructed_for X ev → ¬ X = Config).
Proof.
  apply (cyclic_types_never_constructed (λ X, X = Config) 2 Config st_logged_self
           (Err (VError "no provider for type cosmo.Logger")) st_logged_self
           stuck_logged_self).
  vm_compute. reflexivity.
Defined.

Lemma head_cycle_self : head_cycle (λ X, X = Config) st_self.
Proof.
  intros X ->. split; [vm_compute; reflexivity|].
  exists {| Type_ := Config; Value_ := selfConfig; Scope_ := ScopeTransient |}, Config, [].
  split_and!; [vm_compute; reflexivity|reflexivity|reflexivity].
Qed.

Lemma head_cycle_diverges_witness : resolve 100 Config st_self = None.
Proof.
  apply (head_cycle_diverges (λ X, X = Config) st_self head_cycle_self 100 Config).
  reflexivity.
Defined.

(** c.Invoke(nil) *)
Lemma Invoke_rejects_non_function_witness :
  Invoke 1 ANil st_registered
  = Some (Err (VError "invoke expects a function"), st_registered).
Proof. apply (Invoke_rejects_non_function 1 ANil st_registered). intros fn H. discriminate H. Defined.

(** var fn func(cfg Config); c.Invoke(fn) *)
Definition nilUse : Func nat :=
  {| fn_id := 10; fn_in := [Config]; fn_out := []; fn_body := None |}.

Lemma nil_function_panics_at_call_witness :
  let st1 := after (resolve 1 Config) st_registered in
  Invoke 1 (AFunc nilUse) st_registered = Some (Panic panic_nil_func, st1) ∧
  (∀ sc, providers (ctr st_registered) !! Logger
         = Some {| Type_ := Logger; Value_ := nilUse; Scope_ := sc |} →
         instances (ctr st_registered) !! Logger = None →
         resolve 2 Logger st_registered = Some (Panic panic_nil_func, st1)).
Proof.
  apply (nil_function_panics_at_call 1 nilUse Logger st_registered [VData 1]);
    [reflexivity|vm_compute; reflexivity].
Defined.

(** func(cfg Config) {} *)
Definition useConfig : Func nat :=
  {| fn_id := 11; fn_in := [Config]; fn_out := [];
     fn_body := Some (λ _ w, ([], w)) |}.

(** A struct with an exported and an unexported field, at address 2. *)
Definition Mixed : StructVar :=
  {| s_type := "cosmo.Mixed";
     s_fields := [ {| f_name := "Cfg"; f_type := Config; f_val := VData 0 |};
                   {| f_name := "db"; f_type := DBService; f_val := VNil |} ] |}.

(** struct { Cfg Config }, at address 3. *)
Definition OnlyConfig : StructVar :=
  {| s_type := "cosmo.OnlyConfig";
     s_fields := [ {| f_name := "Cfg"; f_type := Config; f_val := VData 0 |} ] |}.

Definition st_structs : State nat :=
  with_heap {[ 2 := Mixed; 3 := OnlyConfig ]} st_registered.

Definition st_cached : State nat := after (resolve 1 Config) st_structs.

Lemma cached_instances_injected_witness :
  Invoke 1 (AFunc useConfig) st_cached
  = Some (Ok (), {| ctr := ctr st_cached; world := world st_cached; heap := heap st_cached;
                    calls := calls st_cached ++ [Invoked useConfig [VData 1]] |}) ∧
  Bind 1 (AStructPtr 3) st_cached
  = Some (Ok (), with_heap
                   (<[3 := {| s_type := "cosmo.OnlyConfig";
                              s_fields := [ {| f_name := "Cfg"; f_type := Config;
                                               f_val := VData 1 |} ] |}]>
                      (heap st_cached)) st_cached).
Proof.
  split.
  - apply (proj1 (cached_instances_injected 0 st_cached) useConfig [VData 1]
             (λ _ w, ([], w)) []); vm_compute; reflexivity.
  - apply (proj2 (cached_instances_injected 0 st_cached) 3 OnlyConfig [VData 1]).
    + vm_compute. reflexivity.
    + repeat constructor.
    + vm_compute. reflexivity.
Defined.

Lemma Bind_unexported_field_panics_witness :
  let st2 := after (resolve 2 DBService) (after (resolve 2 Config) st_structs) in
  Bind 2 (AStructPtr 2) st_structs
  = Some (Panic panic_unexported,
          with_heap
            (<[2 := {| s_type := "cosmo.Mixed";
                       s_fields := [ {| f_name := "Cfg"; f_type := Config; f_val := VData 1 |};
                                     {| f_name := "db"; f_type := DBService;
                                        f_val := VNil |} ] |}]>
               (heap st_structs)) st2).
Proof.
  apply (Bind_unexported_field_panics 2 2 st_structs Mixed
           [ {| f_name := "Cfg"; f_type := Config; f_val := VData 0 |} ]
           {| f_name := "db"; f_type := DBService; f_val := VNil |} []
           [VData 1] (after (resolve 2 Config) st_structs) (VData 2)).
  - vm_compute. reflexivity.
  - reflexivity.
  - repeat constructor.
  - reflexivity.
  - vm_compute. reflexivity.
  - vm_compute. reflexivity.
Defined.

Lemma constructors_receive_cached_instances_witness :
  let st' := after (resolve 2 DBService) st_registered in
  length [VData 1] = length (fn_in newDBService) ∧
  ∀ i d v v', fn_in newDBService !! i = Some d → [VData 1] !! i = Some v →
    instances (ctr st') !! d = Some v' → v = v'.
Proof.
  apply (constructors_receive_cached_instances 2 DBService st_registered (Ok (VData 2))
           (after (resolve 2 DBService) st_registered) DBService newDBService [VData 1]).
  - vm_compute. reflexivity.
  - apply (list_elem_of_lookup_2 _ 1). vm_compute. reflexivity.
Defined.

Lemma Invoke_passes_cached_instances_witness :
  let st' := after (Invoke 2 (AFunc useDBService)) st_registered in
  ∃ args,
    last (calls st') = Some (Invoked useDBService args) ∧
    length args = length (fn_in useDBService) ∧
    ∀ i d v v', fn_in useDBService !! i = Some d → args !! i = Some v →
      instances (ctr st') !! d = Some v' → v = v'.
Proof.
  apply (Invoke_passes_cached_instances 2 useDBService st_registered).
  vm_compute. reflexivity.
Defined.

(** The container of cosmo_test.go's first variant: c.Add(func() Config {...}) *)
Definition ust_new : Unscoped.State nat :=
  {| Unscoped.ctr := Unscoped.New; Unscoped.world := 0;
     Unscoped.heap := {[ 0 := ToBind ]}; Unscoped.calls := [] |}.

Definition uafter {A} (m : Unscoped.M nat A) (s : Unscoped.State nat) : Unscoped.State nat :=
  match m s with
  | Some (_, s') => s'
  | None => s
  end.

Definition ust_registered : Unscoped.State nat :=
  uafter (Unscoped.Add (AFunc newDBService)) (uafter (Unscoped.Add (AFunc newConfig)) ust_new).

Example unscoped_test_container :
  let s := uafter (Unscoped.Bind 3 (AStructPtr 0))
             (uafter (Unscoped.Invoke 3 (AFunc useDBService)) ust_registered) in
  Unscoped.world s = 1 ∧
  Unscoped.instances (Unscoped.ctr s) !! DBService = Some (VData 2) ∧
  length (Unscoped.calls s) = 3.
Proof. vm_compute. done. Qed.

Lemma Resolve_caches_every_instance_witness :
  let s1 := uafter (Unscoped.Resolve 2 DBService) ust_registered in
  Unscoped.instances (Unscoped.ctr s1) !! DBService = Some (VData 2) ∧
  Unscoped.instances (Unscoped.ctr ust_registered) ⊆ Unscoped.instances (Unscoped.ctr s1) ∧
  ∀ m, Unscoped.Resolve (S m) DBService s1 = Some (Ok (VData 2), s1).
Proof.
  apply (Resolve_caches_every_instance 2 DBService ust_registered (VData 2)).
  vm_compute. reflexivity.
Defined.

Lemma resolve_returns_first_output_witness :
  resolve 1 Config st_registered
  = Some (Ok (VData 1),
          {| ctr := {| configurations := configurations (ctr st_registered);
                       providers := providers (ctr st_registered);
                       instances := scope_store ScopeSingleton Config (VData 1)
                                      (instances (ctr st_registered)) |};
             world := 1; heap := heap st_registered;
             calls := calls st_registered ++ [Constructed Config newConfig []] |}).
Proof.
  apply (resolve_returns_first_output 0 Config st_registered
           {| Type_ := Config; Value_ := newConfig; Scope_ := ScopeSingleton |}
           [] st_registered (λ _ w, ([VData 1], S w)) [VData 1] (VData 1) 1);
    try (vm_compute; reflexivity).
  by left.
Defined.

(** func() (Config, int) and func() (Config, *int) *)
Definition intConfig : Func nat :=
  {| fn_id := 12; fn_in := []; fn_out := [Config; TBasic "int"];
     fn_body := Some (λ _ w, ([VData 1; VData 5], w)) |}.

Definition ptrConfig : Func nat :=
  {| fn_id := 13; fn_in := []; fn_out := [Config; TPtr (TBasic "int")];
     fn_body := Some (λ _ w, ([VData 1; VData 5], w)) |}.

Definition st_int : State nat := after (AddSingleton (AFunc intConfig)) st_new.
Definition st_ptr : State nat := after (AddSingleton (AFunc ptrConfig)) st_new.

Lemma second_output_not_error_panics_witness :
  resolve 1 Config st_int
  = Some (Panic panic_IsNil,
          {| ctr := ctr st_int; world := 0; heap := heap st_int;
             calls := calls st_int ++ [Constructed Config intConfig []] |}) ∧
  resolve 1 Config st_ptr
  = Some (Panic panic_not_error,
          {| ctr := ctr st_ptr; world := 0; heap := heap st_ptr;
             calls := calls st_ptr ++ [Constructed Config ptrConfig []] |}).
Proof.
  split.
  - apply (proj1 (second_output_not_error_panics 0 Config st_int
                    {| Type_ := Config; Value_ := intConfig; Scope_ := ScopeSingleton |}
                    [] st_int (λ _ w, ([VData 1; VData 5], w)) (VData 1) (VData 5) 0
                    eq_refl eq_refl eq_refl eq_refl eq_refl)).
    reflexivity.
  - apply (proj1 (proj2 (second_output_not_error_panics 0 Config st_ptr
                    {| Type_ := Config; Value_ := ptrConfig; Scope_ := ScopeSingleton |}
                    [] st_ptr (λ _ w, ([VData 1; VData 5], w)) (VData 1) (VData 5) 0
                    eq_refl eq_refl eq_refl eq_refl eq_refl))).
    + reflexivity.
    + by exists 5.
Defined.

Lemma resolve_touches_only_dependencies_witness :
  Reach st_registered DBService Config.
Proof.
  apply (resolve_touches_only_dependencies 2 DBService st_registered (Ok (VData 2))
           (after (resolve 2 DBService) st_registered) Config).
  - vm_compute. reflexivity.
  - left. split; [vm_compute; reflexivity|]. exists (VData 1). vm_compute. reflexivity.
Defined.
